(** * flaclink: album detection, fingerprint registry and hardlink replication

    A shallow embedding of [main.go] of flaclink.  The program scans a
    source directory for album directories (directories that hold a
    [.flac] file), hardlinks the ones it has not seen into a target
    directory and remembers them in a bbolt bucket keyed by the gob
    encoding of the album's directory listing.

    Layout of the development:
    - [Path]: the functions of Go's [path/filepath] that the program calls;
    - [Gob]: the wire format [encoding/gob] produces for a [[]string];
    - [FS]: directory trees, and the system calls [ReadDir], [Mkdir], [Link];
    - [Flaclink]: the functions of [main.go], in a state-and-exit monad;
    - the theorems.

    The lines the program logs are left out; the counters of the last
    two lines of [linkNewAlbums] are its result. *)

From Stdlib Require Import ZArith NArith Lia Bool List Ascii String.
From Stdlib Require Import Strings.Byte.
From stdpp Require Import base decidable countable gmap list.
Import ListNotations.

Local Open Scope string_scope.
Local Open Scope Z_scope.
Local Open Scope list_scope.

(* ===================================================================== *)
(** ** Paths ([path/filepath], Unix) *)
(* ===================================================================== *)

Module Path.

(** The path separator, [os.IsPathSeparator]. *)
Definition Separator : ascii := "/"%char.
Definition dot : ascii := "."%char.

Definition IsPathSeparator (c : ascii) : bool := Ascii.eqb c Separator.

(** [filepath.Ext] walks the path from its last byte towards the first and
    stops at the first separator; the first dot met on the way starts the
    extension.  [ext_scan] is that loop over the reversed bytes, [acc]
    holding the bytes already passed. *)
Fixpoint ext_scan (rev_path : list ascii) (acc : list ascii) : string :=
  match rev_path with
  | [] => ""
  | c :: more =>
      if IsPathSeparator c then ""
      else if Ascii.eqb c dot then string_of_list_ascii (c :: acc)
      else ext_scan more (c :: acc)
  end.

Definition Ext (path : string) : string :=
  ext_scan (rev (list_ascii_of_string path)) [].

(** [filepath.Base]: the last element of the path, trailing separators
    removed first; ["."] for the empty path and ["/"] for a path of
    separators only. *)
Fixpoint strip_separators (rev_path : list ascii) : list ascii :=
  match rev_path with
  | c :: more => if IsPathSeparator c then strip_separators more else rev_path
  | [] => []
  end.

Fixpoint last_element (rev_path : list ascii) (acc : list ascii) : list ascii :=
  match rev_path with
  | c :: more => if IsPathSeparator c then acc else last_element more (c :: acc)
  | [] => acc
  end.

Definition Base (path : string) : string :=
  match path with
  | EmptyString => "."
  | _ =>
      match last_element (strip_separators (rev (list_ascii_of_string path))) [] with
      | [] => "/"
      | elem => string_of_list_ascii elem
      end
  end.

(** The slash-separated elements of a path, empty ones included. *)
Fixpoint split_go (path : list ascii) (cur : list ascii) : list string :=
  match path with
  | [] => [string_of_list_ascii (rev cur)]
  | c :: more =>
      if IsPathSeparator c
      then string_of_list_ascii (rev cur) :: split_go more []
      else split_go more (c :: cur)
  end.

Definition elements (path : string) : list string :=
  split_go (list_ascii_of_string path) [].

Definition rooted (path : string) : bool :=
  match path with
  | String c _ => IsPathSeparator c
  | EmptyString => false
  end.

(** One round of the loop of [filepath.Clean], on the element read and the
    elements written so far ([out], last written first).  Empty elements
    and ["."] are dropped; [".."] removes the element before it when there
    is one to remove, is kept at the head of a path that is not rooted and
    is dropped at the head of a rooted one. *)
Definition clean_step (is_rooted : bool) (out : list string) (elem : string)
  : list string :=
  if String.eqb elem "" then out
  else if String.eqb elem "." then out
  else if String.eqb elem ".." then
    match out with
    | top :: below =>
        if String.eqb top ".." then elem :: out else below
    | [] => if is_rooted then out else [elem]
    end
  else elem :: out.

Definition slash : string := String Separator EmptyString.

Definition Clean (path : string) : string :=
  let out := rev (fold_left (clean_step (rooted path)) (elements path) []) in
  let body := String.concat slash out in
  if rooted path then String.append slash body
  else match out with [] => "." | _ => body end.

(** [filepath.Join] of two elements: empty elements are ignored, the rest
    is joined with the separator and cleaned. *)
Definition Join (a b : string) : string :=
  if String.eqb a "" then
    if String.eqb b "" then "" else Clean b
  else Clean (String.append a (String.append slash b)).

End Path.

(* ===================================================================== *)
(** ** The gob encoding of a [[]string] ([encoding/gob]) *)
(* ===================================================================== *)

(** A Go [error] value; [nil] is [None] where a function returns one. *)
Definition error : Type := string.

Inductive result (A : Type) : Type :=
| Ok (a : A)
| Err (e : error).
Arguments Ok {A} a.
Arguments Err {A} e.

Module Gob.

Abbreviation bytes := (list byte).

Definition byte_of_Z (z : Z) : byte :=
  match Byte.of_N (Z.to_N (z mod 256)) with
  | Some b => b
  | None => x00
  end.

Definition bytes_of_string (s : string) : bytes := list_byte_of_string s.

(** The number of bytes of a [uint64] without its leading zero bytes:
    [8 - bits.LeadingZeros64(x) >> 3]. *)
Definition byte_len (x : Z) : nat := Z.to_nat (Z.log2 x / 8 + 1).

(** The [n] low bytes of [x], most significant first
    ([binary.BigEndian.PutUint64], cut at the first byte that counts). *)
Fixpoint big_endian (n : nat) (x : Z) : bytes :=
  match n with
  | O => []
  | S m => byte_of_Z (Z.shiftr x (8 * Z.of_nat m)) :: big_endian m x
  end.

(** [encoderState.encodeUint]: a value up to 127 is one byte; a larger one
    is the negated byte count followed by the bytes, most significant
    first.  The argument is a [uint64]. *)
Definition encodeUint (x : Z) : bytes :=
  let x := x mod 2 ^ 64 in
  if x <=? 127 then [byte_of_Z x]
  else
    let bc := byte_len x in
    byte_of_Z (- Z.of_nat bc) :: big_endian bc x.

(** [encoderState.encodeInt]: the sign moves to bit 0, a negative value
    is complemented. *)
Definition encodeInt (i : Z) : bytes :=
  if i <? 0
  then encodeUint (Z.lor (Z.shiftl (Z.lnot i) 1) 1)
  else encodeUint (Z.shiftl i 1).

(** The type ids gob gives out: [string] is a built-in type with id 6, and
    the first type a program registers, here [[]string], gets id 65. *)
Definition tString : Z := 6.
Definition sliceOfStringId : Z := 65.

(** The largest message the encoder sends, on a 64-bit platform:
    [(1 << 30) << (^uint(0) >> 62)]. *)
Definition tooBig : Z := 2 ^ 33.

(** A message on the wire is its length followed by its bytes
    ([Encoder.writeMessage]). *)
Definition message (body : bytes) : bytes :=
  encodeUint (Z.of_nat (length body)) ++ body.

(** The definition of the type, sent before its first value: the negated
    id, then the [wireType] whose [SliceT] field (delta 2) holds a
    [sliceType] of [CommonType] (delta 1; the name is empty and left out,
    the id is field delta 2) and element type (delta 1); each struct ends
    with a zero byte. *)
Definition typeDescriptor : bytes :=
  encodeInt (- sliceOfStringId)
    ++ [byte_of_Z 2; byte_of_Z 1; byte_of_Z 2] ++ encodeInt sliceOfStringId
    ++ [byte_of_Z 0; byte_of_Z 1] ++ encodeInt tString
    ++ [byte_of_Z 0; byte_of_Z 0].

(** A string is its length and its bytes; a slice is its length and its
    elements ([encString], [encodeArray]). *)
Definition encString (s : string) : bytes :=
  encodeUint (Z.of_nat (String.length s)) ++ bytes_of_string s.

Definition encodeArray (l : list string) : bytes :=
  encodeUint (Z.of_nat (length l)) ++ concat (map encString l).

(** The value message of a slice that is not inside a struct: the type
    id, a zero byte, the slice. *)
Definition valueBody (l : list string) : bytes :=
  encodeInt sliceOfStringId ++ [byte_of_Z 0] ++ encodeArray l.

Definition wire (l : list string) : bytes :=
  message typeDescriptor ++ message (valueBody l).

(** [gob.NewEncoder(&buf).Encode(l)] followed by [buf.Bytes()], for a
    [l] of type [[]string]: a new encoder sends the type definition and
    then the value; a value message of [tooBig] bytes or more is refused.
    Writing to a [bytes.Buffer] does not fail. *)
Definition Encode (l : list string) : result bytes :=
  if tooBig <=? Z.of_nat (length (valueBody l))
  then Err "gob: encoder: message too big"
  else Ok (wire l).

End Gob.

(* ===================================================================== *)
(** ** The file system *)
(* ===================================================================== *)

Module FS.

(** What [ioutil.ReadDir] returns for one entry of a directory, together
    with what lies below it: a file with the device and inode it is
    stored at, or a directory with its entries in listing order
    ([ioutil.ReadDir] lists by file name; [add_child] keeps that order). *)
#[local] Set Warnings "-register-all".
Inductive entry : Type :=
| File (name : string) (dev ino : N)
| Dir (name : string) (dev : N) (readable : bool) (children : list entry).

Definition Name (e : entry) : string :=
  match e with
  | File name _ _ => name
  | Dir name _ _ _ => name
  end.

Definition IsDir (e : entry) : bool :=
  match e with
  | File _ _ _ => false
  | Dir _ _ _ _ => true
  end.

(** [ioutil.ReadDir] on the directory itself: the listing, or an error for
    a file and for a directory that cannot be read. *)
Definition list_dir (e : entry) : result (list entry) :=
  match e with
  | Dir _ _ true children => Ok children
  | Dir _ _ false _ => Err "permission denied"
  | File _ _ _ => Err "not a directory"
  end.

Definition find_child (name : string) (children : list entry) : option entry :=
  List.find (fun c => String.eqb (Name c) name) children.

(** The names a path walks through from the root.  Paths are resolved
    from the root directory; [".."] is looked up as a name and so is never
    found (the paths the program builds are cleaned and hold none below a
    rooted argument). *)
Definition steps (path : string) : list string :=
  List.filter (fun s => negb (String.eqb s "" || String.eqb s "."))
              (Path.elements path).

Fixpoint walk (names : list string) (e : entry) : option entry :=
  match names with
  | [] => Some e
  | n :: rest =>
      match e with
      | Dir _ _ _ children =>
          match find_child n children with
          | Some c => walk rest c
          | None => None
          end
      | File _ _ _ => None
      end
  end.

Definition lookup_path (root : entry) (path : string) : option entry :=
  walk (steps path) root.

Definition ReadDir (root : entry) (path : string) : result (list entry) :=
  match lookup_path root path with
  | Some e => list_dir e
  | None => Err "no such file or directory"
  end.

Fixpoint update_child (name : string) (f : entry -> option entry)
    (children : list entry) : option (list entry) :=
  match children with
  | [] => None
  | c :: rest =>
      if String.eqb (Name c) name
      then match f c with Some c' => Some (c' :: rest) | None => None end
      else match update_child name f rest with
           | Some rest' => Some (c :: rest')
           | None => None
           end
  end.

(** Replace the entry the names lead to by what [f] makes of it. *)
Fixpoint update (names : list string) (f : entry -> option entry) (e : entry)
  : option entry :=
  match names with
  | [] => f e
  | n :: rest =>
      match e with
      | Dir name dev readable children =>
          match update_child n (update rest f) children with
          | Some children' => Some (Dir name dev readable children')
          | None => None
          end
      | File _ _ _ => None
      end
  end.

Fixpoint insert_by_name (e : entry) (children : list entry) : list entry :=
  match children with
  | [] => [e]
  | c :: rest =>
      if String.ltb (Name e) (Name c) then e :: children
      else c :: insert_by_name e rest
  end.

(** A new entry in a directory, made from the directory's device; refused
    when the name is taken or the parent is a file. *)
Definition add_child (name : string) (make : N -> option entry) (parent : entry)
  : option entry :=
  match parent with
  | Dir pname dev readable children =>
      match find_child name children, make dev with
      | None, Some e => Some (Dir pname dev readable (insert_by_name e children))
      | _, _ => None
      end
  | File _ _ _ => None
  end.

Definition split_last (names : list string) : option (list string * string) :=
  match rev names with
  | [] => None
  | name :: parent => Some (rev parent, name)
  end.

Definition create (root : entry) (path : string) (make : string -> N -> option entry)
  : option entry :=
  match split_last (steps path) with
  | Some (parent, name) => update parent (add_child name (make name)) root
  | None => None
  end.

(** [os.Mkdir]: the parent must be a directory that has no entry of the
    name yet. *)
Definition Mkdir (root : entry) (path : string) : result entry :=
  match create root path (fun name dev => Some (Dir name dev true [])) with
  | Some root' => Ok root'
  | None => Err "mkdir: file exists or no such directory"
  end.

(** [os.Link]: the old name must be a file, the new name must be free in
    a directory on the file's device. *)
Definition Link (root : entry) (oldname newname : string) : result entry :=
  match lookup_path root oldname with
  | Some (File _ fdev ino) =>
      match create root newname
              (fun name dev => if N.eqb dev fdev then Some (File name dev ino) else None) with
      | Some root' => Ok root'
      | None => Err "link: file exists, no such directory or cross-device link"
      end
  | _ => Err "link: not a file"
  end.

End FS.

(* ===================================================================== *)
(** ** The state of a run *)
(* ===================================================================== *)

#[global] Instance byte_eq_decision : EqDecision byte := Byte.byte_eq_dec.
#[global] Instance byte_countable : Countable byte :=
  inj_countable Byte.to_N Byte.of_N Byte.of_to_N.

(** Who holds the lock on the store file. *)
Inductive lock : Type := Free | HeldByOther | HeldBySelf.

(** The world a run acts on: the file system, the [albums] bucket of the
    store file [albums.db], and the lock on that file. *)
Record world : Type := World {
  fs : FS.entry;
  albums : gmap (list byte) (list byte);
  flock : lock
}.

Definition set_fs (root : FS.entry) (w : world) : world :=
  World root (albums w) (flock w).
Definition set_albums (b : gmap (list byte) (list byte)) (w : world) : world :=
  World (fs w) b (flock w).
Definition set_flock (l : lock) (w : world) : world :=
  World (fs w) (albums w) l.

(** A computation returns a value, or the process exits ([log.Fatal],
    which calls [os.Exit(1)]); either way it leaves a world behind. *)
Inductive outcome (A : Type) : Type :=
| Ret (a : A) (w : world)
| Exit (w : world).
Arguments Ret {A} a w.
Arguments Exit {A} w.

Definition M (A : Type) : Type := world -> outcome A.

Definition ret {A} (a : A) : M A := fun w => Ret a w.

Definition bind {A B} (m : M A) (k : A -> M B) : M B :=
  fun w => match m w with
           | Ret a w' => k a w'
           | Exit w' => Exit w'
           end.

Notation "'do' x <- m ; k" := (bind m (fun x => k))
  (at level 10, x name, m at level 100, k at level 200).
Notation "'do' '_' <- m ; k" := (bind m (fun _ => k))
  (at level 10, m at level 100, k at level 200).

(** [log.Fatal] and [log.Fatalf]: the process ends, and with it the lock
    it holds (deferred calls do not run). *)
Definition fatal {A} : M A :=
  fun w => Exit (match flock w with
                 | HeldBySelf => set_flock Free w
                 | _ => w
                 end).

Definition world_of {A} (o : outcome A) : world :=
  match o with
  | Ret _ w => w
  | Exit w => w
  end.

(* ===================================================================== *)
(** ** The store ([go.etcd.io/bbolt]) *)
(* ===================================================================== *)

Module Bolt.

Definition MaxKeySize : Z := 32768.
Definition MaxValueSize : Z := 2 ^ 31 - 2.

(** [bolt.Open] with a timeout: the lock on the file is taken, or the
    call gives up when it is held. *)
Definition Open : M (option error) :=
  fun w => match flock w with
           | Free => Ret None (set_flock HeldBySelf w)
           | _ => Ret (Some "timeout") w
           end.

(** [db.Close]. *)
Definition Close : M unit :=
  fun w => Ret tt (match flock w with
                   | HeldBySelf => set_flock Free w
                   | _ => w
                   end).

(** [Bucket.Get] in a [db.View]: [None] is the nil slice of a key that is
    not there. *)
Definition Get (key : list byte) : M (option (list byte)) :=
  fun w => Ret (albums w !! key) w.

(** [Bucket.Put] in a [db.Update]: the key must not be empty nor longer
    than [MaxKeySize], the value not longer than [MaxValueSize]; the
    transaction is committed when [Put] returns nil and rolled back
    otherwise. *)
Definition Put (key value : list byte) : M (option error) :=
  fun w =>
    if Z.of_nat (length key) =? 0 then Ret (Some "key required") w
    else if MaxKeySize <? Z.of_nat (length key) then Ret (Some "key too large") w
    else if MaxValueSize <? Z.of_nat (length value) then Ret (Some "value too large") w
    else Ret None (set_albums (<[key := value]> (albums w)) w).

End Bolt.

(* ===================================================================== *)
(** ** main.go *)
(* ===================================================================== *)

Module Flaclink.

Import FS.

Record Album : Type := mkAlbum {
  DirName : string;
  Contents : list string
}.

(** Go's [int] on a 64-bit platform. *)
Definition int_wrap (z : Z) : Z := (z + 2 ^ 63) mod 2 ^ 64 - 2 ^ 63.
Definition incr (z : Z) : Z := int_wrap (z + 1).

(** [isAlbum].  [d] is what [dirPath] names; the first [match] is the
    result of [ioutil.ReadDir(dirPath)], the inner [fix] the [range] over
    the listing. *)
Fixpoint isAlbum (dirPath : string) (d : entry) {struct d} : bool :=
  match d with
  | Dir _ _ true contents =>
      (fix range (contents : list entry) : bool :=
         match contents with
         | [] => false
         | file :: rest =>
             let path := Path.Join dirPath (Name file) in
             if IsDir file then isAlbum path file
             else if String.eqb (Path.Ext path) ".flac" then true
             else range rest
         end) contents
  | _ => false
  end.

(** [newAlbum]: the error of [ioutil.ReadDir] is dropped, and with it the
    listing. *)
Definition newAlbum (path : string) (d : entry) : Album :=
  let contents := match list_dir d with Ok l => l | Err _ => [] end in
  {| DirName := Path.Base path;
     Contents := fold_left (fun acc file => acc ++ [Name file]) contents [] |}.

(** [inDb]: an encoding error ends the process; otherwise the key is
    looked up. *)
Definition inDb (album : Album) : M bool :=
  match Gob.Encode (Contents album) with
  | Err _ => fatal
  | Ok buf =>
      do v <- Bolt.Get buf;
      ret (match v with Some _ => true | None => false end)
  end.

(** [addToDb]: an encoding error is returned, and so is the error of the
    update. *)
Definition addToDb (album : Album) : M (option error) :=
  match Gob.Encode (Contents album) with
  | Err e => ret (Some e)
  | Ok buf => Bolt.Put buf (Gob.bytes_of_string (DirName album))
  end.

(** The system calls of [linkAlbum], on the world's file system. *)
Definition os_Mkdir (path : string) : M (option error) :=
  fun w => match FS.Mkdir (fs w) path with
           | Ok root => Ret None (set_fs root w)
           | Err e => Ret (Some e) w
           end.

Definition os_Link (oldname newname : string) : M (option error) :=
  fun w => match FS.Link (fs w) oldname newname with
           | Ok root => Ret None (set_fs root w)
           | Err e => Ret (Some e) w
           end.

Definition ioutil_ReadDir (path : string) : M (result (list entry)) :=
  fun w => Ret (FS.ReadDir (fs w) path) w.

(** [linkAlbum].  [src] is what [sourcePath] names; the error of
    [ioutil.ReadDir(sourcePath)] is dropped, and so is what the call on a
    subdirectory returns. *)
Fixpoint linkAlbum (sourcePath targetPath : string) (src : entry) {struct src}
  : M (option error) :=
  let sourceDirName := Path.Base sourcePath in
  let targetDirPath := Path.Join targetPath sourceDirName in
  do err <- os_Mkdir targetDirPath;
  match err with
  | Some _ => fatal
  | None =>
      match src with
      | Dir _ _ true sourceContents =>
          (fix range (sourceContents : list entry) : M (option error) :=
             match sourceContents with
             | [] => ret None
             | file :: rest =>
                 if IsDir file then
                   let subSource := Path.Join sourcePath (Name file) in
                   do _ <- linkAlbum subSource targetDirPath file;
                   range rest
                 else
                   let sourceFilePath := Path.Join sourcePath (Name file) in
                   let targetFilePath := Path.Join targetDirPath (Name file) in
                   do err <- os_Link sourceFilePath targetFilePath;
                   match err with
                   | Some _ => fatal
                   | None => range rest
                   end
             end) sourceContents
      | _ => ret None
      end
  end.

(** The loop of [updateAlbumDb] over the listing of [musicDir].  An entry
    of the listing stands for what its path names: the trees below the
    directory that is scanned do not change during the scan. *)
Fixpoint updateAlbumDb_range (musicDir : string) (musicFiles : list entry)
  : M unit :=
  match musicFiles with
  | [] => ret tt
  | file :: rest =>
      if negb (IsDir file) then updateAlbumDb_range musicDir rest
      else
        let contentPath := Path.Join musicDir (Name file) in
        if isAlbum contentPath file then
          let album := newAlbum contentPath file in
          do known <- inDb album;
          if negb known then
            do _ <- addToDb album;
            updateAlbumDb_range musicDir rest
          else updateAlbumDb_range musicDir rest
        else updateAlbumDb_range musicDir rest
  end.

(** [updateAlbumDb]. *)
Definition updateAlbumDb (musicDir : string) : M (option error) :=
  do musicFiles <- ioutil_ReadDir musicDir;
  match musicFiles with
  | Err _ => fatal
  | Ok musicFiles =>
      do err <- Bolt.Open;
      match err with
      | Some _ => fatal
      | None =>
          do _ <- updateAlbumDb_range musicDir musicFiles;
          do _ <- Bolt.Close;
          ret None
      end
  end.

(** The three counters of [linkNewAlbums], which its last two log lines
    report. *)
Record summary : Type := mkSummary {
  regFiles : Z;
  newAlbums : Z;
  oldAlbums : Z
}.

(** The loop of [linkNewAlbums] over the listing of [sourceDir].  The
    results of [linkAlbum] and [addToDb] are dropped.  The target
    directory is taken to lie outside the albums of the source, so that
    an entry of the listing still stands for what its path names after
    albums before it were linked. *)
Fixpoint linkNewAlbums_range (sourceDir targetDir : string)
    (sourceFiles : list entry) (s : summary) : M summary :=
  match sourceFiles with
  | [] => ret s
  | file :: rest =>
      if negb (IsDir file) then
        linkNewAlbums_range sourceDir targetDir rest
          (mkSummary (incr (regFiles s)) (newAlbums s) (oldAlbums s))
      else
        let contentPath := Path.Join sourceDir (Name file) in
        if isAlbum contentPath file then
          let album := newAlbum contentPath file in
          do known <- inDb album;
          if negb known then
            do _ <- linkAlbum contentPath targetDir file;
            do _ <- addToDb album;
            linkNewAlbums_range sourceDir targetDir rest
              (mkSummary (regFiles s) (incr (newAlbums s)) (oldAlbums s))
          else
            linkNewAlbums_range sourceDir targetDir rest
              (mkSummary (regFiles s) (newAlbums s) (incr (oldAlbums s)))
        else linkNewAlbums_range sourceDir targetDir rest s
  end.

(** [linkNewAlbums].  The error of [ioutil.ReadDir(sourceDir)] is
    overwritten by the one of [bolt.Open] before it is looked at. *)
Definition linkNewAlbums (sourceDir targetDir : string) : M summary :=
  do sourceFiles <- ioutil_ReadDir sourceDir;
  do err <- Bolt.Open;
  match err with
  | Some _ => fatal
  | None =>
      let sourceFiles := match sourceFiles with Ok l => l | Err _ => [] end in
      do s <- linkNewAlbums_range sourceDir targetDir sourceFiles (mkSummary 0 0 0);
      do _ <- Bolt.Close;
      ret s
  end.

(** [main], on [os.Args]; the summary of [linkNewAlbums] is what the run
    reports. *)
Definition main (Args : list string) : M (option summary) :=
  match Args with
  | [_; a1; a2] =>
      let source := Path.Clean a1 in
      let dest := Path.Clean a2 in
      do _ <- updateAlbumDb dest;
      do s <- linkNewAlbums source dest;
      ret (Some s)
  | _ => ret None
  end.

End Flaclink.

(* ===================================================================== *)
(** ** Vocabulary of the statements *)
(* ===================================================================== *)

Import FS Flaclink.

(** The [range] loop of [isAlbum] on its own, from an entry of the
    listing on. *)
Fixpoint isAlbum_range (dirPath : string) (contents : list entry) : bool :=
  match contents with
  | [] => false
  | file :: rest =>
      let path := Path.Join dirPath (Name file) in
      if IsDir file then isAlbum path file
      else if String.eqb (Path.Ext path) ".flac" then true
      else isAlbum_range dirPath rest
  end.

(** An entry of [dirPath] the loop of [isAlbum] stops at: a directory, or
    a file whose path has the extension [.flac]. *)
Definition stops (dirPath : string) (file : entry) : bool :=
  IsDir file || String.eqb (Path.Ext (Path.Join dirPath (Name file))) ".flac".

(** The entries the loop passes over: files of another extension. *)
Definition passed_over (dirPath : string) (files : list entry) : Prop :=
  Forall (fun file => stops dirPath file = false) files.

(** The key an album is stored and looked up under. *)
Definition fingerprint (album : Album) : result (list byte) :=
  Gob.Encode (Contents album).

(** The keys [Bucket.Put] accepts; every key of a store has passed it. *)
Definition key_ok (key : list byte) : Prop :=
  0 < Z.of_nat (length key) <= Bolt.MaxKeySize.

Definition store_ok (b : gmap (list byte) (list byte)) : Prop :=
  map_Forall (fun key _ => key_ok key) b.

(** An album the scan of [musicDir] detects among [files], with the key
    and the name it is stored with. *)
Definition detected (musicDir : string) (files : list entry)
    (key value : list byte) : Prop :=
  exists file,
    In file files /\ IsDir file = true
    /\ isAlbum (Path.Join musicDir (Name file)) file = true
    /\ fingerprint (newAlbum (Path.Join musicDir (Name file)) file) = Ok key
    /\ value = Gob.bytes_of_string (DirName (newAlbum (Path.Join musicDir (Name file)) file)).

(** The [range] loop of [linkAlbum] on its own. *)
Fixpoint linkAlbum_range (sourcePath targetDirPath : string)
    (sourceContents : list entry) : M (option error) :=
  match sourceContents with
  | [] => ret None
  | file :: rest =>
      if IsDir file then
        do _ <- linkAlbum (Path.Join sourcePath (Name file)) targetDirPath file;
        linkAlbum_range sourcePath targetDirPath rest
      else
        do err <- os_Link (Path.Join sourcePath (Name file))
                          (Path.Join targetDirPath (Name file));
        match err with
        | Some _ => fatal
        | None => linkAlbum_range sourcePath targetDirPath rest
        end
  end.

(** Induction on a directory tree, the entries of a directory assumed. *)
Fixpoint entry_tree_ind (P : entry -> Prop)
    (HFile : forall name dev ino, P (File name dev ino))
    (HDir : forall name dev readable children,
        Forall P children -> P (Dir name dev readable children))
    (e : entry) : P e :=
  match e with
  | File name dev ino => HFile name dev ino
  | Dir name dev readable children =>
      HDir name dev readable children
        ((fix all (l : list entry) : Forall P l :=
            match l with
            | [] => @List.Forall_nil entry P
            | c :: rest =>
                @List.Forall_cons entry P c rest (entry_tree_ind P HFile HDir c) (all rest)
            end) children)
  end.

(** Worlds the statements are tried on. *)
Module Examples.

(** A download directory with the album [A] and the directory [B] that
    holds no audio file, an empty library, an empty store. *)
Definition two_dirs : world :=
  World (Dir "/" 1 true
           [Dir "dl" 1 true
              [Dir "A" 1 true [File "x.flac" 1 10; File "y.flac" 1 11];
               Dir "B" 1 true [File "cover.jpg" 1 12]];
            Dir "lib" 1 true []])
        ∅ Free.

(** The download directory lies on another device than the library. *)
Definition other_device : world :=
  World (Dir "/" 1 true
           [Dir "dl" 2 true [Dir "A" 2 true [File "x.flac" 2 10]];
            Dir "lib" 1 true []])
        ∅ Free.

(** The library has a directory of the name of the new album. *)
Definition name_taken : world :=
  World (Dir "/" 1 true
           [Dir "dl" 1 true [Dir "A" 1 true [File "x.flac" 1 10]];
            Dir "lib" 1 true [Dir "A" 1 true [File "notes.txt" 1 20]]])
        ∅ Free.

(** A directory with a cover, a subdirectory without audio files and,
    after it in the listing, an audio file. *)
Definition art_first : entry :=
  Dir "A" 1 true
    [File "a.jpg" 1 5; Dir "art" 1 true [File "front.png" 1 6]; File "z.flac" 1 7].

(** An album of 140 tracks with names of 248 bytes: its listing encodes
    to more than [Bolt.MaxKeySize] bytes. *)
Definition digit (n : nat) : ascii := ascii_of_nat (48 + n mod 10).

Definition track (i : nat) : string :=
  String (digit (i / 100)) (String (digit (i / 10)) (String (digit i)
    (String.append (string_of_list_ascii (repeat "a"%char 240)) ".flac"))).

Definition box_set : entry :=
  Dir "box" 1 true (map (fun i => File (track i) 1 (N.of_nat i)) (seq 100 140)).

Definition long_listing : world :=
  World (Dir "/" 1 true [Dir "dl" 1 true [box_set]; Dir "lib" 1 true []])
        ∅ Free.

(** The store after the album [A] of [two_dirs] was added. *)
Definition A_known : world :=
  World (fs two_dirs)
        (<[Gob.wire ["x.flac"; "y.flac"] := Gob.bytes_of_string "A"]> ∅) Free.

(** The same two tracks in a directory of another name. *)
Definition A_again : entry :=
  Dir "A (copy)" 1 true [File "x.flac" 1 30; File "y.flac" 1 31].

(** Two directories that cannot be read. *)
Definition locked_1 : entry := Dir "P" 1 false [File "p.flac" 1 40].
Definition locked_2 : entry := Dir "Q" 1 false [].


End Examples.

(** The album of an entry of [sourceDir] has a key and a name the store
    accepts. *)
Definition storable (sourceDir : string) (file : entry) : Prop :=
  let album := newAlbum (Path.Join sourceDir (Name file)) file in
  forall key, fingerprint album = Ok key ->
    Z.of_nat (length key) <= Bolt.MaxKeySize
    /\ Z.of_nat (length (Gob.bytes_of_string (DirName album))) <= Bolt.MaxValueSize.

(** The album of an entry of [sourceDir] is in the store. *)
Definition known_in (sourceDir : string) (b : gmap (list byte) (list byte))
    (file : entry) : Prop :=
  IsDir file = true ->
  isAlbum (Path.Join sourceDir (Name file)) file = true ->
  exists key,
    fingerprint (newAlbum (Path.Join sourceDir (Name file)) file) = Ok key
    /\ is_Some (b !! key).

(** The summary of a run that finds every album of the listing in the
    store. *)
Fixpoint all_known_summary (sourceDir : string) (sourceFiles : list entry)
    (s : summary) : summary :=
  match sourceFiles with
  | [] => s
  | file :: rest =>
      if IsDir file then
        if isAlbum (Path.Join sourceDir (Name file)) file then
          all_known_summary sourceDir rest
            (mkSummary (regFiles s) (newAlbums s) (incr (oldAlbums s)))
        else all_known_summary sourceDir rest s
      else
        all_known_summary sourceDir rest
          (mkSummary (incr (regFiles s)) (newAlbums s) (oldAlbums s))
  end.

(** What [linkAlbum] has to do: link a directory into a target, or link
    the entries of a directory into the directory made for them. *)
Inductive task : Type :=
| WholeAlbum (sourcePath targetPath : string) (src : entry)
| Entries (sourcePath targetDirPath : string) (sourceContents : list entry).

Definition run (t : task) : M (option error) :=
  match t with
  | WholeAlbum sourcePath targetPath src => linkAlbum sourcePath targetPath src
  | Entries sourcePath targetDirPath sourceContents =>
      linkAlbum_range sourcePath targetDirPath sourceContents
  end.

(** In the course of a task a directory cannot be made or a file cannot
    be linked: the failing call is the first of the task, or it is met
    after the calls before it went well. *)
Inductive step_fails : task -> world -> Prop :=
| fails_Mkdir sourcePath targetPath src w e w1 :
    os_Mkdir (Path.Join targetPath (Path.Base sourcePath)) w = Ret (Some e) w1 ->
    step_fails (WholeAlbum sourcePath targetPath src) w
| fails_in_album sourcePath targetPath name dev contents w w1 :
    os_Mkdir (Path.Join targetPath (Path.Base sourcePath)) w = Ret None w1 ->
    step_fails (Entries sourcePath (Path.Join targetPath (Path.Base sourcePath))
                  contents) w1 ->
    step_fails (WholeAlbum sourcePath targetPath (Dir name dev true contents)) w
| fails_Link sourcePath targetDirPath file rest w e w1 :
    IsDir file = false ->
    os_Link (Path.Join sourcePath (Name file))
            (Path.Join targetDirPath (Name file)) w = Ret (Some e) w1 ->
    step_fails (Entries sourcePath targetDirPath (file :: rest)) w
| fails_in_subdir sourcePath targetDirPath file rest w :
    IsDir file = true ->
    step_fails (WholeAlbum (Path.Join sourcePath (Name file)) targetDirPath file) w ->
    step_fails (Entries sourcePath targetDirPath (file :: rest)) w
| fails_after_Link sourcePath targetDirPath file rest w w1 :
    IsDir file = false ->
    os_Link (Path.Join sourcePath (Name file))
            (Path.Join targetDirPath (Name file)) w = Ret None w1 ->
    step_fails (Entries sourcePath targetDirPath rest) w1 ->
    step_fails (Entries sourcePath targetDirPath (file :: rest)) w
| fails_after_subdir sourcePath targetDirPath file rest w r w1 :
    IsDir file = true ->
    linkAlbum (Path.Join sourcePath (Name file)) targetDirPath file w = Ret r w1 ->
    step_fails (Entries sourcePath targetDirPath rest) w1 ->
    step_fails (Entries sourcePath targetDirPath (file :: rest)) w.

(** In the run over [files] from [s] and [w], the run came to a
    directory with the fingerprint [key] when the key was not in the
    store, and [linkAlbum] returned for it. *)
Definition linked_before (sourceDir targetDir : string) (files : list entry)
    (s : summary) (w : world) (key : list byte) : Prop :=
  exists pre file post s1 w1 r w2,
    files = pre ++ file :: post
    /\ linkNewAlbums_range sourceDir targetDir pre s w = Ret s1 w1
    /\ IsDir file = true
    /\ fingerprint (newAlbum (Path.Join sourceDir (Name file)) file) = Ok key
    /\ albums w1 !! key = None
    /\ linkAlbum (Path.Join sourceDir (Name file)) targetDir file w1 = Ret r w2.

Definition no_separator (l : list ascii) : Prop :=
  Forall (fun c => Path.IsPathSeparator c = false) l.

(** The name of an entry of a directory: not empty, not ["."] nor
    [".."], and without a separator. *)
Definition valid_name (name : string) : Prop :=
  no_separator (list_ascii_of_string name)
  /\ name <> "" /\ name <> "." /\ name <> "..".

(** A prefix a name can be appended to: nothing, or a path up to and
    with a separator. *)
Definition dir_prefix (p : string) : Prop :=
  p = "" \/ exists q, p = String.append q Path.slash.

#[local] Set Warnings "-register-all".
(** A tree that has grown: the files are the same, a directory has kept
    its name, device and mode, and what a name led to in it has grown. *)
Inductive grows : entry -> entry -> Prop :=
| grows_File name dev ino : grows (File name dev ino) (File name dev ino)
| grows_Dir name dev readable children children' :
    (forall n c, find_child n children = Some c ->
                 exists c', find_child n children' = Some c' /\ grows c c') ->
    grows (Dir name dev readable children) (Dir name dev readable children').

(** What [linkAlbum] makes: a directory, or a link to a file. *)
Inductive product : Type :=
| MadeDir (target : string)
| MadeLink (source target : string).

Fixpoint products (sourcePath targetPath : string) (src : entry) {struct src}
  : list product :=
  let targetDirPath := Path.Join targetPath (Path.Base sourcePath) in
  MadeDir targetDirPath ::
  match src with
  | Dir _ _ true sourceContents =>
      (fix range (sourceContents : list entry) : list product :=
         match sourceContents with
         | [] => []
         | file :: rest =>
             (if IsDir file
              then products (Path.Join sourcePath (Name file)) targetDirPath file
              else [MadeLink (Path.Join sourcePath (Name file))
                             (Path.Join targetDirPath (Name file))])
             ++ range rest
         end) sourceContents
  | _ => []
  end.

Fixpoint products_range (sourcePath targetDirPath : string)
    (sourceContents : list entry) : list product :=
  match sourceContents with
  | [] => []
  | file :: rest =>
      (if IsDir file
       then products (Path.Join sourcePath (Name file)) targetDirPath file
       else [MadeLink (Path.Join sourcePath (Name file))
                      (Path.Join targetDirPath (Name file))])
      ++ products_range sourcePath targetDirPath rest
  end.

(** Two paths that lead to one file: the same inode on the same device. *)
Definition same_file (root : entry) (p q : string) : Prop :=
  exists n1 n2 dev ino,
    lookup_path root p = Some (File n1 dev ino)
    /\ lookup_path root q = Some (File n2 dev ino).

Definition is_directory (root : entry) (p : string) : Prop :=
  exists name dev readable children,
    lookup_path root p = Some (Dir name dev readable children).

(** The product is there. *)
Definition made (root : entry) (p : product) : Prop :=
  match p with
  | MadeDir target => is_directory root target
  | MadeLink source target => same_file root source target
  end.

(** Below the directory there is a file whose path has the extension
    [.flac], in a directory that can be read, down a chain of
    directories that can be read. *)
Inductive holds_flac : string -> entry -> Prop :=
| flac_here dirPath name dev contents file :
    In file contents -> IsDir file = false ->
    Path.Ext (Path.Join dirPath (Name file)) = ".flac" ->
    holds_flac dirPath (Dir name dev true contents)
| flac_below dirPath name dev contents sub :
    In sub contents -> IsDir sub = true ->
    holds_flac (Path.Join dirPath (Name sub)) sub ->
    holds_flac dirPath (Dir name dev true contents).

(** Every entry below has the name of a directory entry. *)
Inductive well_named : entry -> Prop :=
| well_named_File name dev ino : well_named (File name dev ino)
| well_named_Dir name dev readable children :
    Forall (fun c => valid_name (Name c) /\ well_named c) children ->
    well_named (Dir name dev readable children).



(** A world that a run has only added to: the file system has grown, the
    store has kept its entries, and its keys are still keys [Put] takes. *)
Definition extends (w w' : world) : Prop :=
  grows (fs w) (fs w')
  /\ (forall key v, albums w !! key = Some v -> albums w' !! key = Some v)
  /\ (store_ok (albums w) -> store_ok (albums w')).

(** The lock at the end of a computation that holds it: still held when
    the computation returns, given up with the process when it exits. *)
Definition lock_end {A} (o : outcome A) : Prop :=
  match o with
  | Ret _ w => flock w = HeldBySelf
  | Exit w => flock w = Free
  end.

(** The album of an entry of [musicDir] needs no insert: it is in the
    store, or the store does not take its key or its name. *)
Definition settled (musicDir : string) (b : gmap (list byte) (list byte))
    (file : entry) : Prop :=
  IsDir file = true ->
  isAlbum (Path.Join musicDir (Name file)) file = true ->
  let album := newAlbum (Path.Join musicDir (Name file)) file in
  exists key,
    fingerprint album = Ok key
    /\ (is_Some (b !! key)
        \/ ~ (key_ok key
              /\ Z.of_nat (length (Gob.bytes_of_string (DirName album)))
                 <= Bolt.MaxValueSize)).

(** A bound on the length of the key of a listing: the two message
    headers, the type definition, and a length of at most nine bytes
    before the listing and before each name. *)
Definition key_bound (l : list string) : Z :=
  34 + fold_right (fun s acc => Z.of_nat (String.length s) + 9 + acc) 0 l.

(** More worlds the statements are tried on. *)
Module MoreExamples.

Definition A : entry := Dir "A" 1 true [File "x.flac" 1 10; File "y.flac" 1 11].

(** A disc in a subdirectory, after a cover. *)
Definition nested : entry :=
  Dir "N" 1 true [File "cover.jpg" 1 50; Dir "cd1" 1 true [File "1.flac" 1 51]].

(** The library has the album [A]; the download directory has the same
    two tracks under another name. *)
Definition in_library : world :=
  World (Dir "/" 1 true
           [Dir "dl" 1 true [Examples.A_again];
            Dir "lib" 1 true [A]])
        ∅ Free.

End MoreExamples.

(** [createAppDataDir] of [main.go], and the [os.Stat] it calls. *)
Module Bootstrap.

(** What [os.Stat] finds at the end of a path: the entry, nothing where a
    name is missing ([ENOENT]), nothing where the path goes through a
    file ([ENOTDIR]). *)
Inductive stat_result : Type :=
| Found (e : entry)
| ENOENT
| ENOTDIR.

Fixpoint stat (names : list string) (e : entry) : stat_result :=
  match names with
  | [] => Found e
  | n :: rest =>
      match e with
      | Dir _ _ _ children =>
          match find_child n children with
          | Some c => stat rest c
          | None => ENOENT
          end
      | File _ _ _ => ENOTDIR
      end
  end.

Definition os_Stat (path : string) : M stat_result :=
  fun w => Ret (stat (steps path) (fs w)) w.

(** [os.IsNotExist] on the error of [os.Stat]. *)
Definition os_IsNotExist (st : stat_result) : bool :=
  match st with
  | ENOENT => true
  | _ => false
  end.

(** [createAppDataDir].  [usr] is what [user.Current()] returns: the home
    directory of the user, or an error. *)
Definition createAppDataDir (usr : result string) : M string :=
  match usr with
  | Err _ => fatal
  | Ok HomeDir =>
      let appDataPath := Path.Join HomeDir ".flaclink" in
      do st <- os_Stat appDataPath;
      if os_IsNotExist st then
        do err <- os_Mkdir appDataPath;
        match err with
        | Some _ => fatal
        | None => ret appDataPath
        end
      else ret appDataPath
  end.

End Bootstrap.

Module BootExamples.

(** A home directory without a data directory. *)
Definition fresh_home : world :=
  World (Dir "/" 1 true [Dir "home" 1 true [Dir "u" 1 true []]]) ∅ Free.

End BootExamples.

(* ===================================================================== *)
(** ** Paths of directory entries *)
(* ===================================================================== *)

Section PathFacts.

Import Path.

Lemma list_ascii_of_string_app a b :
  list_ascii_of_string (String.append a b)
  = list_ascii_of_string a ++ list_ascii_of_string b.
Proof.
  induction a as [|c a IH]; [reflexivity|].
  change (c :: list_ascii_of_string (String.append a b)
          = c :: (list_ascii_of_string a ++ list_ascii_of_string b)).
  rewrite IH. reflexivity.
Qed.

Lemma split_go_no_separator l : forall cur,
  no_separator l -> split_go l cur = [string_of_list_ascii (rev cur ++ l)].
Proof.
  induction l as [|c l IH]; intros cur Hl; simpl.
  - rewrite app_nil_r. reflexivity.
  - inversion Hl as [|? ? Hc Hl']; subst. rewrite Hc, IH by assumption.
    simpl. rewrite <- app_assoc. reflexivity.
Qed.

Lemma split_go_separator l1 l2 : forall cur,
  split_go (l1 ++ Separator :: l2) cur = split_go l1 cur ++ split_go l2 [].
Proof.
  induction l1 as [|c l1 IH]; intros cur; simpl.
  - reflexivity.
  - destruct (IsPathSeparator c); simpl; rewrite IH; reflexivity.
Qed.

Lemma split_go_nonempty l cur : split_go l cur <> [].
Proof.
  revert cur. induction l as [|c l IH]; intros cur; simpl; [discriminate|].
  destruct (IsPathSeparator c); [discriminate|apply IH].
Qed.

Lemma elements_join a name :
  no_separator (list_ascii_of_string name) ->
  elements (String.append a (String.append slash name)) = elements a ++ [name].
Proof.
  intros Hn. unfold elements. rewrite !list_ascii_of_string_app. simpl.
  rewrite split_go_separator, (split_go_no_separator _ [] Hn). simpl.
  rewrite string_of_list_ascii_of_string. reflexivity.
Qed.

Lemma append_assoc a b c :
  String.append (String.append a b) c = String.append a (String.append b c).
Proof.
  induction a as [|x a IH]; [reflexivity|].
  change (String x (String.append (String.append a b) c)
          = String x (String.append a (String.append b c))).
  rewrite IH. reflexivity.
Qed.

Lemma append_nil_r a : String.append a "" = a.
Proof.
  induction a as [|x a IH]; [reflexivity|].
  change (String x (String.append a "") = String x a).
  rewrite IH. reflexivity.
Qed.

Lemma clean_step_name r out name :
  valid_name name -> clean_step r out name = name :: out.
Proof.
  intros (_ & H0 & H1 & H2). unfold clean_step.
  apply String.eqb_neq in H0, H1, H2. rewrite H0, H1, H2. reflexivity.
Qed.

Lemma concat_cons sep h xs :
  xs <> [] ->
  String.concat sep (h :: xs)
  = String.append h (String.append sep (String.concat sep xs)).
Proof. destruct xs; [congruence|reflexivity]. Qed.

Lemma concat_last xs name :
  exists p, String.concat slash (xs ++ [name]) = String.append p name
            /\ dir_prefix p /\ (xs = [] -> p = "").
Proof.
  induction xs as [|h t (p & Hp & Hd & _)].
  - exists "". repeat split; [left; reflexivity].
  - exists (String.append h (String.append slash p)).
    split; [|split; [|discriminate]].
    + change ((h :: t) ++ [name]) with (h :: (t ++ [name])).
      rewrite concat_cons by (destruct t; discriminate).
      rewrite Hp, !append_assoc. reflexivity.
    + right. destruct Hd as [->|(q & ->)].
      * exists h. rewrite append_nil_r. reflexivity.
      * exists (String.append h (String.append slash q)).
        rewrite !append_assoc. reflexivity.
Qed.

Lemma rooted_append a b : a <> "" -> rooted (String.append a b) = rooted a.
Proof. destruct a; [congruence|reflexivity]. Qed.

Lemma Clean_name name : valid_name name -> Clean name = name.
Proof.
  intros Hv. pose proof Hv as (Hsep & H0 & _).
  unfold Clean, elements. rewrite (split_go_no_separator _ [] Hsep). simpl.
  rewrite string_of_list_ascii_of_string, (clean_step_name _ _ _ Hv). simpl.
  destruct name as [|c name]; [congruence|]. simpl.
  inversion Hsep as [|? ? Hc _]; subst. rewrite Hc. reflexivity.
Qed.

(** The path of an entry of a directory ends with the name of the entry. *)
Lemma Join_name dir name :
  valid_name name ->
  exists p, Join dir name = String.append p name /\ dir_prefix p.
Proof.
  intros Hv. pose proof Hv as (Hsep & H0 & _). unfold Join.
  destruct (String.eqb_spec dir "") as [->|Hdir].
  { apply String.eqb_neq in H0. rewrite H0, (Clean_name _ Hv).
    exists "". split; [reflexivity|left; reflexivity]. }
  unfold Clean. rewrite (rooted_append _ _ Hdir), (elements_join _ _ Hsep).
  rewrite fold_left_app. simpl. rewrite (clean_step_name _ _ _ Hv). simpl.
  destruct (concat_last (rev (fold_left (clean_step (rooted dir)) (elements dir) [])) name)
    as (p & -> & Hd & _).
  destruct (rooted dir).
  - exists (String.append slash p). rewrite append_assoc. split; [reflexivity|].
    right. destruct Hd as [->|(q & ->)].
    + exists "". reflexivity.
    + exists (String.append slash q). rewrite append_assoc. reflexivity.
  - destruct (rev _ ++ [name]) eqn:E; [destruct (rev _); discriminate|].
    exists p. auto.
Qed.

Lemma rev_dir_prefix p :
  dir_prefix p ->
  rev (list_ascii_of_string p) = []
  \/ exists r, rev (list_ascii_of_string p) = Separator :: r.
Proof.
  intros [->|(q & ->)]; [left; reflexivity|right].
  rewrite list_ascii_of_string_app. simpl. rewrite rev_app_distr. simpl. eauto.
Qed.

Lemma ext_scan_prefix l r : forall acc,
  no_separator l -> (r = [] \/ exists r', r = Separator :: r') ->
  ext_scan (l ++ r) acc = ext_scan l acc.
Proof.
  induction l as [|c l IH]; intros acc Hl Hr; simpl.
  - destruct Hr as [->|(r' & ->)]; reflexivity.
  - inversion Hl as [|? ? Hc Hl']; subst. rewrite Hc.
    destruct (Ascii.eqb c dot); [reflexivity|]. apply IH; assumption.
Qed.

Lemma last_element_prefix l r : forall acc,
  no_separator l -> (r = [] \/ exists r', r = Separator :: r') ->
  last_element (l ++ r) acc = rev l ++ acc.
Proof.
  induction l as [|c l IH]; intros acc Hl Hr; simpl.
  - destruct Hr as [->|(r' & ->)]; reflexivity.
  - inversion Hl as [|? ? Hc Hl']; subst. rewrite Hc, IH by assumption.
    rewrite <- app_assoc. reflexivity.
Qed.

Lemma no_separator_rev l : no_separator l -> no_separator (rev l).
Proof. apply List.Forall_rev. Qed.

Lemma Ext_append p name :
  dir_prefix p -> no_separator (list_ascii_of_string name) ->
  Ext (String.append p name) = Ext name.
Proof.
  intros Hp Hn. unfold Ext.
  rewrite list_ascii_of_string_app, rev_app_distr.
  rewrite ext_scan_prefix; auto using no_separator_rev, rev_dir_prefix.
Qed.

Lemma Base_append p name :
  dir_prefix p -> valid_name name -> Base (String.append p name) = name.
Proof.
  intros Hp (Hn & H0 & _). unfold Base.
  destruct (String.append p name) eqn:E.
  { destruct p, name; try discriminate; congruence. }
  rewrite <- E. clear E.
  rewrite list_ascii_of_string_app, rev_app_distr.
  assert (Hstrip : forall l r, no_separator l -> l <> [] ->
                     strip_separators (l ++ r) = l ++ r).
  { intros [|c l] r Hl Hne; [congruence|].
    inversion Hl as [|? ? Hc _]; subst. simpl. rewrite Hc. reflexivity. }
  assert (Hne : rev (list_ascii_of_string name) <> []).
  { destruct name as [|c name]; [congruence|]. simpl.
    destruct (rev (list_ascii_of_string name)); discriminate. }
  rewrite Hstrip by auto using no_separator_rev.
  rewrite last_element_prefix by auto using no_separator_rev, rev_dir_prefix.
  rewrite app_nil_r, rev_involutive.
  destruct (list_ascii_of_string name) eqn:E.
  { destruct name; [congruence|discriminate]. }
  rewrite <- E. apply string_of_list_ascii_of_string.
Qed.

(** For an entry of a directory, the extension and the base name of its
    path are those of its name. *)
Lemma Ext_Join dir name :
  valid_name name -> Ext (Join dir name) = Ext name.
Proof.
  intros Hv. destruct (Join_name dir name Hv) as (p & -> & Hp).
  apply Ext_append; [exact Hp|apply Hv].
Qed.

Lemma Base_Join dir name :
  valid_name name -> Base (Join dir name) = name.
Proof.
  intros Hv. destruct (Join_name dir name Hv) as (p & -> & Hp).
  apply Base_append; assumption.
Qed.

End PathFacts.

(* ===================================================================== *)
(** ** Album detection *)
(* ===================================================================== *)

Section Detection.

Variables (dirPath name : string) (dev : N).

Lemma isAlbum_readable contents :
  isAlbum dirPath (Dir name dev true contents) = isAlbum_range dirPath contents.
Proof.
  induction contents as [|file rest IH]; [reflexivity|].
  simpl in *. rewrite IH. reflexivity.
Qed.

Lemma isAlbum_unreadable (d : entry) e :
  list_dir d = Err e -> isAlbum dirPath d = false.
Proof. destruct d as [|? ? [] ?]; simpl; congruence. Qed.

Lemma isAlbum_range_passed pre rest :
  passed_over dirPath pre ->
  isAlbum_range dirPath (pre ++ rest) = isAlbum_range dirPath rest.
Proof.
  induction 1 as [|file pre Hfile _ IH]; [reflexivity|].
  unfold stops in Hfile. apply orb_false_elim in Hfile as [Hdir Hext].
  simpl. rewrite Hdir, Hext. exact IH.
Qed.

(** For an entry of the directory the test on the path is a test on the
    name of the entry. *)
Lemma stops_by_name file :
  valid_name (Name file) ->
  stops dirPath file = IsDir file || String.eqb (Path.Ext (Name file)) ".flac".
Proof. intros Hv. unfold stops. rewrite Ext_Join by exact Hv. reflexivity. Qed.

(** C1.  [isAlbum] looks at the entries of a directory in listing order.
    Of the entries that are a directory or a file with the extension
    [.flac], only the first counts: when it is a directory the answer is
    the answer for that directory, whatever entries [post] follow it and
    whatever files came before; when it is a [.flac] file the answer is
    true; when there is no such entry the answer is false. *)
Theorem isAlbum_listing_order (contents : list entry) :
  (forall pre file post,
      contents = pre ++ file :: post -> passed_over dirPath pre ->
      IsDir file = true ->
      isAlbum dirPath (Dir name dev true contents)
      = isAlbum (Path.Join dirPath (Name file)) file)
  /\ (forall pre file post,
      contents = pre ++ file :: post -> passed_over dirPath pre ->
      IsDir file = false ->
      Path.Ext (Path.Join dirPath (Name file)) = ".flac" ->
      isAlbum dirPath (Dir name dev true contents) = true)
  /\ (passed_over dirPath contents ->
      isAlbum dirPath (Dir name dev true contents) = false).
Proof.
  repeat split.
  - intros pre file post -> Hpre Hdir.
    rewrite isAlbum_readable, isAlbum_range_passed by assumption.
    simpl. rewrite Hdir. reflexivity.
  - intros pre file post -> Hpre Hdir Hext.
    rewrite isAlbum_readable, isAlbum_range_passed by assumption.
    simpl. rewrite Hdir, Hext. reflexivity.
  - intros Hall. rewrite isAlbum_readable.
    rewrite <- (app_nil_r contents), isAlbum_range_passed by assumption.
    reflexivity.
Qed.

End Detection.

(* ===================================================================== *)
(** ** The registry *)
(* ===================================================================== *)

Section Registry.

Implicit Types (album : Album) (w : world) (key : list byte).

Lemma store_ok_empty : store_ok ∅.
Proof. apply map_Forall_empty. Qed.

Lemma Put_cases key value w r w1 :
  Bolt.Put key value w = Ret r w1 ->
  (r = None /\ key_ok key /\ w1 = set_albums (<[key := value]> (albums w)) w)
  \/ (exists e, r = Some e /\ w1 = w).
Proof.
  unfold Bolt.Put, key_ok.
  destruct (Z.eqb_spec (Z.of_nat (length key)) 0) as [|Hne];
    [intros [= <- <-]; right; eauto|].
  destruct (Z.ltb_spec Bolt.MaxKeySize (Z.of_nat (length key)));
    [intros [= <- <-]; right; eauto|].
  destruct (Z.ltb_spec Bolt.MaxValueSize (Z.of_nat (length value)));
    [intros [= <- <-]; right; eauto|].
  intros [= <- <-]. left. repeat split; lia.
Qed.

Lemma Put_accepts key value w :
  key_ok key -> Z.of_nat (length value) <= Bolt.MaxValueSize ->
  Bolt.Put key value w = Ret None (set_albums (<[key := value]> (albums w)) w).
Proof.
  unfold Bolt.Put, key_ok. intros [Hpos Hmax] Hval.
  destruct (Z.eqb_spec (Z.of_nat (length key)) 0); [lia|].
  destruct (Z.ltb_spec Bolt.MaxKeySize (Z.of_nat (length key))); [lia|].
  destruct (Z.ltb_spec Bolt.MaxValueSize (Z.of_nat (length value))); [lia|].
  reflexivity.
Qed.

Lemma addToDb_cases album w r w1 :
  addToDb album w = Ret r w1 ->
  (exists key, fingerprint album = Ok key /\ r = None /\ key_ok key
     /\ w1 = set_albums (<[key := Gob.bytes_of_string (DirName album)]> (albums w)) w)
  \/ (exists e, r = Some e /\ w1 = w).
Proof.
  unfold addToDb, fingerprint. destruct (Gob.Encode (Contents album)) as [key|e].
  - intros [(-> & Hk & ->)|(e & -> & ->)]%Put_cases; [left|right]; eauto.
  - intros [= <- <-]. right; eauto.
Qed.

Lemma addToDb_never_exits album w : exists r w1, addToDb album w = Ret r w1.
Proof.
  unfold addToDb. destruct (Gob.Encode (Contents album)); [|unfold ret; eauto].
  unfold Bolt.Put.
  destruct (_ =? _); [eauto|]. destruct (_ <? _); [eauto|].
  destruct (_ <? _); eauto.
Qed.

Lemma addToDb_keeps_store_ok album w r w1 :
  addToDb album w = Ret r w1 -> store_ok (albums w) -> store_ok (albums w1).
Proof.
  intros [(key & _ & _ & Hk & ->)|(e & _ & ->)]%addToDb_cases Hok; [|exact Hok].
  simpl. apply map_Forall_insert_2; assumption.
Qed.

Lemma inDb_present album key w :
  fingerprint album = Ok key -> is_Some (albums w !! key) ->
  inDb album w = Ret true w.
Proof.
  unfold inDb, fingerprint. intros -> [v Hv].
  unfold bind, Bolt.Get, ret. rewrite Hv. reflexivity.
Qed.

Lemma inDb_absent album key w :
  fingerprint album = Ok key -> albums w !! key = None ->
  inDb album w = Ret false w.
Proof.
  unfold inDb, fingerprint. intros -> Hv.
  unfold bind, Bolt.Get, ret. rewrite Hv. reflexivity.
Qed.

Lemma inDb_cases album w :
  (exists key, fingerprint album = Ok key
     /\ inDb album w = Ret (bool_decide (is_Some (albums w !! key))) w)
  \/ (exists e, fingerprint album = Err e /\ inDb album w = fatal w).
Proof.
  unfold inDb, fingerprint. destruct (Gob.Encode (Contents album)) as [key|e].
  - left. exists key. split; [reflexivity|].
    unfold bind, Bolt.Get, ret. cbv beta iota.
    destruct (albums w !! key) eqn:Hk.
    + rewrite bool_decide_eq_true_2 by eauto. reflexivity.
    + rewrite bool_decide_eq_false_2; [reflexivity|]. intros [? ?]; congruence.
  - right. eauto.
Qed.

(** C3.  After [addToDb] has stored an album, [inDb] finds it: with the
    handle the insert was made with, after that handle was closed and
    the store opened again, and with any handle on a store file of the
    same contents. *)
Theorem inDb_after_addToDb album w w1 :
  addToDb album w = Ret None w1 ->
  inDb album w1 = Ret true w1
  /\ (forall w2 w3, Bolt.Close w1 = Ret tt w2 -> Bolt.Open w2 = Ret None w3 ->
        inDb album w3 = Ret true w3)
  /\ (forall w2, albums w2 = albums w1 -> inDb album w2 = Ret true w2).
Proof.
  intros [(key & Hfp & _ & _ & ->)|(e & [=] & _)]%addToDb_cases.
  assert (Hlater : forall w2,
             albums w2 = <[key := Gob.bytes_of_string (DirName album)]> (albums w) ->
             inDb album w2 = Ret true w2).
  { intros w2 Hw2. apply (inDb_present _ key); [exact Hfp|].
    rewrite Hw2, lookup_insert_eq. eauto. }
  split; [|split].
  - apply Hlater. reflexivity.
  - intros w2 w3 Hclose Hopen. apply Hlater.
    unfold Bolt.Close in Hclose. unfold Bolt.Open in Hopen.
    injection Hclose as <-.
    destruct (flock _) in Hopen; try discriminate.
    + injection Hopen as <-. simpl. destruct (flock w); reflexivity.
  - intros w2 Hw2. apply Hlater. rewrite Hw2. reflexivity.
Qed.

(** C8.  The fingerprint is the key of the bucket.  [addToDb] on an album
    whose fingerprint is a key of the store does not fail: it replaces the
    name stored under that key, changes no other entry, and the store has
    as many entries as before, each key once. *)
Theorem addToDb_overwrites album key old w :
  fingerprint album = Ok key ->
  albums w !! key = Some old ->
  store_ok (albums w) ->
  Z.of_nat (length (Gob.bytes_of_string (DirName album))) <= Bolt.MaxValueSize ->
  exists w1,
    addToDb album w = Ret None w1
    /\ albums w1 !! key = Some (Gob.bytes_of_string (DirName album))
    /\ (forall k, k <> key -> albums w1 !! k = albums w !! k)
    /\ size (albums w1) = size (albums w)
    /\ NoDup (map_to_list (albums w1)).*1.
Proof.
  intros Hfp Hold Hok Hval.
  pose proof (Hok key old Hold) as Hkey. simpl in Hkey.
  eexists. split.
  { unfold addToDb. unfold fingerprint in Hfp. rewrite Hfp.
    apply Put_accepts; assumption. }
  simpl. repeat split.
  - apply lookup_insert_eq.
  - intros k Hk. apply lookup_insert_ne. congruence.
  - apply map_size_insert_Some. eauto.
  - apply NoDup_fst_map_to_list.
Qed.

End Registry.

(* ===================================================================== *)
(** ** The fingerprint *)
(* ===================================================================== *)

Section GobBytes.

Import Gob.

Lemma byte_of_Z_to_N z : Byte.to_N (byte_of_Z z) = Z.to_N (z mod 256).
Proof.
  unfold byte_of_Z. destruct (Byte.of_N _) as [b|] eqn:Hb.
  - apply Byte.to_of_N. exact Hb.
  - apply Byte.of_N_None_iff in Hb.
    pose proof (Z.mod_pos_bound z 256 ltac:(lia)). lia.
Qed.

Lemma byte_of_Z_inj a b : byte_of_Z a = byte_of_Z b -> a mod 256 = b mod 256.
Proof.
  intros H. apply (f_equal Byte.to_N) in H. rewrite !byte_of_Z_to_N in H.
  pose proof (Z.mod_pos_bound a 256 ltac:(lia)).
  pose proof (Z.mod_pos_bound b 256 ltac:(lia)). lia.
Qed.

Lemma length_big_endian n x : length (big_endian n x) = n.
Proof. induction n; simpl; congruence. Qed.

Lemma big_endian_inj n x y :
  big_endian n x = big_endian n y ->
  x mod 2 ^ (8 * Z.of_nat n) = y mod 2 ^ (8 * Z.of_nat n).
Proof.
  induction n as [|m IH]; intros H.
  - simpl. rewrite !Z.mod_1_r. reflexivity.
  - simpl in H. injection H as Hhd Htl. apply byte_of_Z_inj in Hhd.
    specialize (IH Htl).
    rewrite !Z.shiftr_div_pow2 in Hhd by lia.
    replace (8 * Z.of_nat (S m)) with (8 * Z.of_nat m + 8) by lia.
    rewrite Z.pow_add_r by lia. change (2 ^ 8) with 256.
    assert (0 < 2 ^ (8 * Z.of_nat m)) by (apply Z.pow_pos_nonneg; lia).
    rewrite !Z.rem_mul_r by lia. congruence.
Qed.

Lemma byte_len_bounds x :
  127 < x < 2 ^ 64 ->
  (1 <= byte_len x <= 8)%nat /\ x < 2 ^ (8 * Z.of_nat (byte_len x)).
Proof.
  intros [Hlo Hhi]. unfold byte_len.
  assert (0 <= Z.log2 x) by apply Z.log2_nonneg.
  assert (Z.log2 x < 64) by (apply Z.log2_lt_pow2; lia).
  assert (0 <= Z.log2 x / 8 < 8) by (split; [apply Z.div_pos; lia|apply Z.div_lt_upper_bound; lia]).
  split; [lia|].
  rewrite Z2Nat.id by lia.
  pose proof (Z.log2_spec x ltac:(lia)) as [_ Hx].
  eapply Z.lt_le_trans; [exact Hx|].
  apply Z.pow_le_mono_r; [lia|].
  pose proof (Z.mod_pos_bound (Z.log2 x) 8 ltac:(lia)).
  pose proof (Z.div_mod (Z.log2 x) 8 ltac:(lia)). lia.
Qed.

Lemma encodeUint_nonempty x : encodeUint x <> [].
Proof. unfold encodeUint. destruct (_ <=? _); discriminate. Qed.

(** An unsigned integer can be read back from the front of a stream:
    two encodings that start two equal streams are of the same number. *)
Lemma encodeUint_prefix x y r1 r2 :
  0 <= x < 2 ^ 64 -> 0 <= y < 2 ^ 64 ->
  encodeUint x ++ r1 = encodeUint y ++ r2 -> x = y /\ r1 = r2.
Proof.
  intros Hx Hy. unfold encodeUint.
  rewrite (Z.mod_small x), (Z.mod_small y) by lia.
  destruct (Z.leb_spec x 127) as [Hx7|Hx7], (Z.leb_spec y 127) as [Hy7|Hy7];
    simpl; intros Heq; injection Heq as Hhd Htl; apply byte_of_Z_inj in Hhd.
  - rewrite !Z.mod_small in Hhd by lia. auto.
  - destruct (byte_len_bounds y ltac:(lia)) as [Hb _].
    rewrite (Z.mod_small x) in Hhd by lia.
    replace (- Z.of_nat (byte_len y)) with (256 - Z.of_nat (byte_len y) + (-1) * 256) in Hhd by lia.
    rewrite Z.mod_add, Z.mod_small in Hhd by lia. lia.
  - destruct (byte_len_bounds x ltac:(lia)) as [Hb _].
    rewrite (Z.mod_small y) in Hhd by lia.
    replace (- Z.of_nat (byte_len x)) with (256 - Z.of_nat (byte_len x) + (-1) * 256) in Hhd by lia.
    rewrite Z.mod_add, Z.mod_small in Hhd by lia. lia.
  - destruct (byte_len_bounds x ltac:(lia)) as [Hbx Hxlt].
    destruct (byte_len_bounds y ltac:(lia)) as [Hby Hylt].
    replace (- Z.of_nat (byte_len x)) with (256 - Z.of_nat (byte_len x) + (-1) * 256) in Hhd by lia.
    replace (- Z.of_nat (byte_len y)) with (256 - Z.of_nat (byte_len y) + (-1) * 256) in Hhd by lia.
    rewrite !Z.mod_add, !Z.mod_small in Hhd by lia.
    assert (Hbc : byte_len x = byte_len y) by lia.
    rewrite Hbc in Htl, Hxlt.
    apply app_inj_1 in Htl as [Hbe ->]; [|rewrite !length_big_endian; reflexivity].
    apply big_endian_inj in Hbe.
    rewrite !Z.mod_small in Hbe by lia. auto.
Qed.

Lemma length_bytes_of_string s :
  length (bytes_of_string s) = String.length s.
Proof.
  unfold bytes_of_string, list_byte_of_string. rewrite List.length_map.
  induction s as [|c s IH]; simpl; congruence.
Qed.

Lemma bytes_of_string_inj s1 s2 :
  bytes_of_string s1 = bytes_of_string s2 -> s1 = s2.
Proof.
  intros H. apply (f_equal string_of_list_byte) in H.
  unfold bytes_of_string in H.
  rewrite !string_of_list_byte_of_string in H. exact H.
Qed.

Lemma encString_prefix s1 s2 r1 r2 :
  Z.of_nat (String.length s1) < 2 ^ 64 ->
  Z.of_nat (String.length s2) < 2 ^ 64 ->
  encString s1 ++ r1 = encString s2 ++ r2 -> s1 = s2 /\ r1 = r2.
Proof.
  intros H1 H2. unfold encString. rewrite <- !app_assoc.
  intros [Hlen Hrest]%encodeUint_prefix; [|lia..].
  apply app_inj_1 in Hrest as [Hs ->];
    [|rewrite !length_bytes_of_string; lia].
  apply bytes_of_string_inj in Hs. auto.
Qed.

Lemma encString_elements l1 : forall l2,
  length l1 = length l2 ->
  Forall (fun s => Z.of_nat (String.length s) < 2 ^ 64) l1 ->
  Forall (fun s => Z.of_nat (String.length s) < 2 ^ 64) l2 ->
  concat (map encString l1) = concat (map encString l2) -> l1 = l2.
Proof.
  induction l1 as [|s1 l1 IH]; intros [|s2 l2] Hlen Hb1 Hb2 Heq;
    try discriminate; [reflexivity|].
  inversion Hb1; inversion Hb2; subst. simpl in Heq, Hlen.
  apply encString_prefix in Heq as [-> Heq]; [|assumption..].
  f_equal. apply IH; auto.
Qed.

Lemma length_concat_encString l :
  (length l <= length (concat (map encString l)))%nat
  /\ Forall (fun s => (String.length s <= length (concat (map encString l)))%nat) l.
Proof.
  induction l as [|s l [IHn IHs]]; [split; [reflexivity|constructor]|].
  simpl. rewrite !length_app. unfold encString at 1 3.
  rewrite !length_app, length_bytes_of_string.
  pose proof (encodeUint_nonempty (Z.of_nat (String.length s))) as Hne.
  destruct (encodeUint (Z.of_nat (String.length s))) as [|b bs]; [congruence|].
  simpl. split; [lia|]. constructor; [lia|].
  eapply Forall_impl; [exact IHs|]. simpl. intros; lia.
Qed.

(** What a value message holds is no longer than the message. *)
Lemma valueBody_bounds l :
  (length l <= length (valueBody l))%nat
  /\ Forall (fun s => (String.length s <= length (valueBody l))%nat) l.
Proof.
  destruct (length_concat_encString l) as [Hn Hs].
  unfold valueBody, encodeArray. rewrite !length_app.
  split; [lia|]. eapply Forall_impl; [exact Hs|]. simpl. intros; lia.
Qed.

Lemma Encode_Ok l key :
  Encode l = Ok key ->
  key = wire l /\ Z.of_nat (length (valueBody l)) < tooBig.
Proof.
  unfold Encode. destruct (Z.leb_spec tooBig (Z.of_nat (length (valueBody l))));
    [discriminate|]. intros [= <-]. auto.
Qed.


Lemma Encode_key_nonempty l key : Encode l = Ok key -> key <> [].
Proof.
  intros [-> _]%Encode_Ok. unfold wire, message at 1.
  pose proof (encodeUint_nonempty (Z.of_nat (length typeDescriptor))) as Hne.
  destruct (encodeUint _); [congruence|discriminate].
Qed.

Lemma wire_inj l1 l2 :
  Z.of_nat (length (valueBody l1)) < tooBig ->
  Z.of_nat (length (valueBody l2)) < tooBig ->
  wire l1 = wire l2 -> l1 = l2.
Proof.
  intros H1 H2 Heq. unfold tooBig in *.
  assert (2 ^ 33 < 2 ^ 64) by (apply Z.pow_lt_mono_r; lia).
  destruct (valueBody_bounds l1) as [Hn1 Hs1], (valueBody_bounds l2) as [Hn2 Hs2].
  unfold wire in Heq. apply app_inv_head in Heq.
  unfold message in Heq.
  apply encodeUint_prefix in Heq as [_ Heq]; [|lia..].
  unfold valueBody in Heq. do 2 apply app_inv_head in Heq.
  unfold encodeArray in Heq.
  apply encodeUint_prefix in Heq as [Hlen Heq]; [|lia..].
  apply encString_elements; [lia| | |exact Heq].
  - eapply Forall_impl; [exact Hs1|]. cbv beta. intros; lia.
  - eapply Forall_impl; [exact Hs2|]. cbv beta. intros; lia.
Qed.

(** C4.  The fingerprint is a function of the sequence of names: equal
    sequences have equal fingerprints, and two sequences that differ, in
    a name, in the number of names or in their order, have different
    fingerprints. *)
Theorem fingerprint_injective (l1 l2 : list string) (key1 key2 : list byte) :
  Encode l1 = Ok key1 -> Encode l2 = Ok key2 ->
  (l1 = l2 -> key1 = key2) /\ (l1 <> l2 -> key1 <> key2).
Proof.
  intros H1 H2. split.
  - intros ->. congruence.
  - intros Hne Heq. apply Hne.
    apply Encode_Ok in H1 as [-> Hb1]. apply Encode_Ok in H2 as [-> Hb2].
    apply wire_inj; assumption.
Qed.

End GobBytes.

(* ===================================================================== *)
(** ** Describing an album *)
(* ===================================================================== *)

Section Describe.

Lemma collect_names (files : list entry) (acc : list string) :
  fold_left (fun acc file => acc ++ [Name file]) files acc = acc ++ map Name files.
Proof.
  revert acc. induction files as [|file files IH]; intros acc; simpl.
  - rewrite app_nil_r. reflexivity.
  - rewrite IH, <- app_assoc. reflexivity.
Qed.

Lemma newAlbum_Contents path d :
  Contents (newAlbum path d)
  = match list_dir d with Ok files => map Name files | Err _ => [] end.
Proof.
  unfold newAlbum. simpl. rewrite collect_names.
  destruct (list_dir d); reflexivity.
Qed.

(** The album of an entry of a directory is named after the entry. *)
Lemma newAlbum_DirName_entry dir file :
  valid_name (Name file) ->
  DirName (newAlbum (Path.Join dir (Name file)) file) = Name file.
Proof. intros Hv. apply Base_Join, Hv. Qed.

Lemma Encode_nil : Gob.Encode [] = Ok (Gob.wire []).
Proof. reflexivity. Qed.

(** C10.  [newAlbum] returns an album for every path: its [DirName] is
    the base name of the path, and its [Contents] are the names of the
    listing, or no names when the directory cannot be read.  Two
    directories that cannot be read so have the same fingerprint, the one
    of the empty listing, and once one of them is in the store the other
    is found there. *)
Theorem newAlbum_unreadable :
  (forall path d, DirName (newAlbum path d) = Path.Base path)
  /\ (forall path1 d1 e1 path2 d2 e2,
        list_dir d1 = Err e1 -> list_dir d2 = Err e2 ->
        Contents (newAlbum path1 d1) = []
        /\ fingerprint (newAlbum path1 d1) = Ok (Gob.wire [])
        /\ fingerprint (newAlbum path2 d2) = fingerprint (newAlbum path1 d1)
        /\ (forall w w1,
              addToDb (newAlbum path1 d1) w = Ret None w1 ->
              inDb (newAlbum path2 d2) w1 = Ret true w1)).
Proof.
  split; [reflexivity|].
  intros path1 d1 e1 path2 d2 e2 H1 H2.
  assert (Hc1 : Contents (newAlbum path1 d1) = [])
    by (rewrite newAlbum_Contents, H1; reflexivity).
  assert (Hc2 : Contents (newAlbum path2 d2) = [])
    by (rewrite newAlbum_Contents, H2; reflexivity).
  assert (Hf1 : fingerprint (newAlbum path1 d1) = Ok (Gob.wire []))
    by (unfold fingerprint; rewrite Hc1; exact Encode_nil).
  assert (Hf2 : fingerprint (newAlbum path2 d2) = Ok (Gob.wire []))
    by (unfold fingerprint; rewrite Hc2; exact Encode_nil).
  repeat split; [assumption..|congruence|].
  intros w w1 [(key & Hfp & _ & _ & ->)|(e & [=] & _)]%addToDb_cases.
  apply (inDb_present _ key); [congruence|].
  simpl. rewrite lookup_insert_eq. eauto.
Qed.

End Describe.

(* ===================================================================== *)
(** ** Back-filling the registry *)
(* ===================================================================== *)

Section Backfill.

Implicit Types (album : Album) (w : world) (key : list byte).

Lemma fatal_world {A} w :
  exists w1, @fatal A w = Exit w1 /\ fs w1 = fs w /\ albums w1 = albums w.
Proof. unfold fatal. destruct (flock w); eauto. Qed.

Lemma inDb_Ret album w known w1 :
  inDb album w = Ret known w1 ->
  w1 = w /\ exists key, fingerprint album = Ok key
                        /\ known = bool_decide (is_Some (albums w !! key)).
Proof.
  destruct (inDb_cases album w) as [(key & Hfp & ->)|(e & _ & ->)].
  - intros [= <- <-]. eauto.
  - destruct (@fatal_world bool w) as (w2 & -> & _). discriminate.
Qed.

Lemma inDb_Exit album w w1 :
  inDb album w = Exit w1 ->
  fs w1 = fs w /\ albums w1 = albums w /\ exists e, fingerprint album = Err e.
Proof.
  destruct (inDb_cases album w) as [(key & Hfp & ->)|(e & Hfp & ->)];
    [discriminate|].
  destruct (@fatal_world bool w) as (w2 & -> & Hfs & Hal).
  intros [= <-]. eauto.
Qed.

(** One round of the loop of [updateAlbumDb], the binds written out. *)
Lemma updateAlbumDb_range_cons musicDir file rest w :
  updateAlbumDb_range musicDir (file :: rest) w =
  if IsDir file then
    let contentPath := Path.Join musicDir (Name file) in
    if isAlbum contentPath file then
      match inDb (newAlbum contentPath file) w with
      | Ret true w1 => updateAlbumDb_range musicDir rest w1
      | Ret false w1 =>
          match addToDb (newAlbum contentPath file) w1 with
          | Ret _ w2 => updateAlbumDb_range musicDir rest w2
          | Exit w2 => Exit w2
          end
      | Exit w1 => Exit w1
      end
    else updateAlbumDb_range musicDir rest w
  else updateAlbumDb_range musicDir rest w.
Proof.
  simpl. destruct (IsDir file); [|reflexivity]. simpl.
  destruct (isAlbum _ file); [|reflexivity].
  unfold bind. destruct (inDb _ w) as [[] w1|w1]; reflexivity.
Qed.

Lemma detected_cons musicDir file files key value :
  detected musicDir files key value -> detected musicDir (file :: files) key value.
Proof. intros (f & Hin & H). exists f. split; [right; exact Hin|exact H]. Qed.

Lemma updateAlbumDb_range_frame musicDir files : forall w,
  let w' := world_of (updateAlbumDb_range musicDir files w) in
  fs w' = fs w
  /\ (forall key v, albums w !! key = Some v -> albums w' !! key = Some v)
  /\ (forall key v, albums w' !! key = Some v ->
        albums w !! key = Some v
        \/ (albums w !! key = None /\ detected musicDir files key v)).
Proof.
  induction files as [|file rest IH]; intros w; [simpl; auto|].
  rewrite updateAlbumDb_range_cons.
  assert (Hskip : let w' := world_of (updateAlbumDb_range musicDir rest w) in
            fs w' = fs w
            /\ (forall key v, albums w !! key = Some v -> albums w' !! key = Some v)
            /\ (forall key v, albums w' !! key = Some v ->
                  albums w !! key = Some v
                  \/ (albums w !! key = None /\ detected musicDir (file :: rest) key v))).
  { destruct (IH w) as (Hfs & Hkeep & Hnew). repeat split; [assumption..|].
    intros key v [?|[? ?%(detected_cons _ file)]]%Hnew; auto. }
  destruct (IsDir file) eqn:Hdir; [|exact Hskip]. cbv zeta.
  destruct (isAlbum _ file) eqn:Halbum; [|exact Hskip].
  destruct (inDb _ w) as [known w1|w1] eqn:Hin.
  - apply inDb_Ret in Hin as (-> & key0 & Hfp & ->).
    destruct (bool_decide _) eqn:Hknown; [exact Hskip|].
    apply bool_decide_eq_false_1 in Hknown.
    assert (Hnone : albums w !! key0 = None).
    { destruct (albums w !! key0) eqn:E; [exfalso; apply Hknown; eauto|reflexivity]. }
    destruct (addToDb_never_exits (newAlbum (Path.Join musicDir (Name file)) file) w)
      as (r & w2 & Hadd).
    rewrite Hadd.
    apply addToDb_cases in Hadd as [(key & Hfp' & _ & _ & ->)|(e & _ & ->)];
      [|exact Hskip].
    assert (key = key0) as -> by congruence.
    destruct (IH (set_albums (<[key0:=Gob.bytes_of_string
               (DirName (newAlbum (Path.Join musicDir (Name file)) file))]> (albums w)) w))
      as (Hfs & Hkeep & Hnew).
    simpl in Hfs, Hkeep, Hnew. repeat split.
    + exact Hfs.
    + intros key v Hv. apply Hkeep. rewrite lookup_insert_ne; congruence.
    + intros key v [Hv|[Hv Hd]]%Hnew.
      * destruct (decide (key0 = key)) as [<-|Hne].
        -- rewrite lookup_insert_eq in Hv. injection Hv as <-.
           right. split; [exact Hnone|].
           exists file. repeat split; auto. left; reflexivity.
        -- rewrite lookup_insert_ne in Hv by exact Hne. auto.
      * destruct (decide (key0 = key)) as [<-|Hne];
          [rewrite lookup_insert_eq in Hv; discriminate|].
        rewrite lookup_insert_ne in Hv by exact Hne.
        right. split; [exact Hv|]. apply detected_cons, Hd.
  - apply inDb_Exit in Hin as (Hfs & Hal & _). simpl.
    rewrite Hfs, Hal. auto.
Qed.

(** C9.  [updateAlbumDb] leaves the file system as it found it: it makes
    no directory and no link.  In the store it keeps every entry, and an
    entry it adds is the fingerprint and name of an album detected in the
    listing of the directory, under a key that was not in the store. *)
Theorem updateAlbumDb_only_registers (musicDir : string) (w : world) :
  let w' := world_of (updateAlbumDb musicDir w) in
  fs w' = fs w
  /\ (forall key v, albums w !! key = Some v -> albums w' !! key = Some v)
  /\ (forall key v, albums w' !! key = Some v ->
        albums w !! key = Some v
        \/ (albums w !! key = None
            /\ exists files, ReadDir (fs w) musicDir = Ok files
                             /\ detected musicDir files key v)).
Proof.
  unfold updateAlbumDb, bind, ioutil_ReadDir.
  destruct (ReadDir (fs w) musicDir) as [files|e] eqn:Hread.
  2:{ destruct (@fatal_world (option error) w) as (w1 & -> & Hfs & Hal).
      simpl. rewrite Hfs, Hal. auto. }
  unfold Bolt.Open. destruct (flock w) eqn:Hlock.
  2,3: destruct (@fatal_world (option error) w) as (w1 & -> & Hfs & Hal);
       simpl; rewrite Hfs, Hal; auto.
  pose proof (updateAlbumDb_range_frame musicDir files (set_flock HeldBySelf w))
    as (Hfs & Hkeep & Hnew).
  destruct (updateAlbumDb_range musicDir files (set_flock HeldBySelf w))
    as [[] w1|w1]; simpl in *.
  - assert (Hclose : forall l, fs (match l with HeldBySelf => set_flock Free w1 | _ => w1 end) = fs w1
                            /\ albums (match l with HeldBySelf => set_flock Free w1 | _ => w1 end) = albums w1)
      by (intros []; auto).
    destruct (Hclose (flock w1)) as [-> ->]. repeat split; [assumption..|].
    intros key v [?|[? ?]]%Hnew; eauto.
  - repeat split; [assumption..|].
    intros key v [?|[? ?]]%Hnew; eauto.
Qed.

End Backfill.

(* ===================================================================== *)
(** ** Linking new albums *)
(* ===================================================================== *)

Section Linking.

Implicit Types (album : Album) (w : world) (key : list byte) (s : summary).

Lemma linkAlbum_unfold sourcePath targetPath src w :
  linkAlbum sourcePath targetPath src w =
  let targetDirPath := Path.Join targetPath (Path.Base sourcePath) in
  match os_Mkdir targetDirPath w with
  | Ret None w1 =>
      match src with
      | Dir _ _ true sourceContents =>
          linkAlbum_range sourcePath targetDirPath sourceContents w1
      | _ => Ret None w1
      end
  | Ret (Some _) w1 => fatal w1
  | Exit w1 => Exit w1
  end.
Proof.
  destruct src as [n d i|n d r cs]; simpl; unfold bind;
    destruct (os_Mkdir _ w) as [[e|] w1|w1]; try reflexivity.
  destruct r; [|reflexivity].
  generalize w1. induction cs as [|file rest IH]; intros w2; [reflexivity|].
  simpl. unfold bind. destruct (IsDir file).
  - destruct (linkAlbum _ _ file w2); [apply IH|reflexivity].
  - destruct (os_Link _ _ w2) as [[e|] w3|w3]; [reflexivity|apply IH|reflexivity].
Qed.

Lemma os_Mkdir_albums path w :
  exists r w1, os_Mkdir path w = Ret r w1 /\ albums w1 = albums w /\ flock w1 = flock w.
Proof. unfold os_Mkdir. destruct (FS.Mkdir _ _); eauto. Qed.

Lemma os_Link_albums oldname newname w :
  exists r w1, os_Link oldname newname w = Ret r w1
               /\ albums w1 = albums w /\ flock w1 = flock w.
Proof. unfold os_Link. destruct (FS.Link _ _ _); eauto. Qed.

(** [linkAlbum] does not touch the store, and what it returns, when it
    returns, is nil. *)
Lemma linkAlbum_albums src : forall sourcePath targetPath w,
  albums (world_of (linkAlbum sourcePath targetPath src w)) = albums w
  /\ (forall r w1, linkAlbum sourcePath targetPath src w = Ret r w1 ->
        r = None /\ flock w1 = flock w).
Proof.
  induction src as [n d i|n d r cs IH] using entry_tree_ind;
    intros sourcePath targetPath w; rewrite linkAlbum_unfold; cbv zeta;
    destruct (os_Mkdir_albums (Path.Join targetPath (Path.Base sourcePath)) w)
      as ([e|] & w1 & -> & Hal & Hfl).
  1,3: destruct (@fatal_world (option error) w1) as (w2 & -> & _ & Hal2);
       simpl; split; [congruence|discriminate].
  - simpl. split; [exact Hal|]. intros r0 w0 [= <- <-]. auto.
  - destruct r; [|simpl; split; [exact Hal|intros r0 w0 [= <- <-]; auto]].
    rewrite <- Hal, <- Hfl. clear Hal Hfl w.
    generalize (Path.Join targetPath (Path.Base sourcePath)) as tdp. intros tdp.
    revert w1. induction IH as [|file rest Hfile _ IHrest]; intros w1.
    + simpl. split; [reflexivity|]. intros r0 w0 [= <- <-]. auto.
    + simpl. unfold bind. destruct (IsDir file).
      * destruct (Hfile (Path.Join sourcePath (Name file)) tdp w1) as [Hal Hret].
        destruct (linkAlbum _ tdp file w1) as [r0 w2|w2]; simpl in Hal.
        -- destruct (Hret r0 w2 eq_refl) as [_ Hfl].
           destruct (IHrest w2) as [Hal2 Hr]. split; [congruence|].
           intros r1 w3 [-> Hfl3]%Hr. split; [reflexivity|congruence].
        -- split; [exact Hal|discriminate].
      * destruct (os_Link_albums (Path.Join sourcePath (Name file))
                    (Path.Join tdp (Name file)) w1) as ([e|] & w2 & -> & Hal & Hfl).
        -- destruct (@fatal_world (option error) w2) as (w3 & -> & _ & Hal3).
           simpl. split; [congruence|discriminate].
        -- destruct (IHrest w2) as [Hal2 Hr]. split; [congruence|].
           intros r1 w3 [-> Hfl3]%Hr. split; [reflexivity|congruence].
Qed.

(** One round of the loop of [linkNewAlbums], the binds written out. *)
Lemma linkNewAlbums_range_cons sourceDir targetDir file rest s w :
  linkNewAlbums_range sourceDir targetDir (file :: rest) s w =
  if IsDir file then
    let contentPath := Path.Join sourceDir (Name file) in
    let album := newAlbum contentPath file in
    if isAlbum contentPath file then
      match inDb album w with
      | Ret true w1 =>
          linkNewAlbums_range sourceDir targetDir rest
            (mkSummary (regFiles s) (newAlbums s) (incr (oldAlbums s))) w1
      | Ret false w1 =>
          match linkAlbum contentPath targetDir file w1 with
          | Ret _ w2 =>
              match addToDb album w2 with
              | Ret _ w3 =>
                  linkNewAlbums_range sourceDir targetDir rest
                    (mkSummary (regFiles s) (incr (newAlbums s)) (oldAlbums s)) w3
              | Exit w3 => Exit w3
              end
          | Exit w2 => Exit w2
          end
      | Exit w1 => Exit w1
      end
    else linkNewAlbums_range sourceDir targetDir rest s w
  else
    linkNewAlbums_range sourceDir targetDir rest
      (mkSummary (incr (regFiles s)) (newAlbums s) (oldAlbums s)) w.
Proof.
  cbn [linkNewAlbums_range]. destruct (IsDir file); [|reflexivity].
  cbn [negb]. cbv zeta. destruct (isAlbum _ file); [|reflexivity].
  unfold bind. destruct (inDb _ w) as [[] w1|w1]; reflexivity.
Qed.

Lemma linkNewAlbums_range_app sourceDir targetDir pre post : forall s w,
  linkNewAlbums_range sourceDir targetDir (pre ++ post) s w =
  match linkNewAlbums_range sourceDir targetDir pre s w with
  | Ret s1 w1 => linkNewAlbums_range sourceDir targetDir post s1 w1
  | Exit w1 => Exit w1
  end.
Proof.
  induction pre as [|file pre IH]; intros s w; [reflexivity|].
  rewrite <- app_comm_cons, !linkNewAlbums_range_cons.
  destruct (IsDir file); [|apply IH]. cbv zeta.
  destruct (isAlbum _ file); [|apply IH].
  destruct (inDb _ w) as [[] w1|w1]; [apply IH| |reflexivity].
  destruct (linkAlbum _ _ file w1) as [r w2|w2]; [|reflexivity].
  destruct (addToDb _ w2) as [r' w3|w3]; [apply IH|reflexivity].
Qed.

Lemma linkAlbum_range_cons sourcePath targetDirPath file rest w :
  linkAlbum_range sourcePath targetDirPath (file :: rest) w =
  if IsDir file then
    match linkAlbum (Path.Join sourcePath (Name file)) targetDirPath file w with
    | Ret _ w1 => linkAlbum_range sourcePath targetDirPath rest w1
    | Exit w1 => Exit w1
    end
  else
    match os_Link (Path.Join sourcePath (Name file))
                  (Path.Join targetDirPath (Name file)) w with
    | Ret (Some _) w1 => fatal w1
    | Ret None w1 => linkAlbum_range sourcePath targetDirPath rest w1
    | Exit w1 => Exit w1
    end.
Proof.
  simpl. unfold bind. destruct (IsDir file); [reflexivity|].
  destruct (os_Link _ _ w) as [[e|] w1|w1]; reflexivity.
Qed.

(** A task in which a step fails ends the process. *)
Lemma step_fails_exits t w : step_fails t w -> exists w2, run t w = Exit w2.
Proof.
  induction 1 as [sp tp src w e w1 Hmk
                 |sp tp name dev contents w w1 Hmk _ (w2 & IH)
                 |sp tdp file rest w e w1 Hfile Hln
                 |sp tdp file rest w Hdir _ (w2 & IH)
                 |sp tdp file rest w w1 Hfile Hln _ (w2 & IH)
                 |sp tdp file rest w r w1 Hdir Hsub _ (w2 & IH)];
    cbn [run] in *.
  - rewrite linkAlbum_unfold. cbv zeta. rewrite Hmk.
    destruct (@fatal_world (option error) w1) as (w2 & -> & _). eauto.
  - rewrite linkAlbum_unfold. cbv zeta. rewrite Hmk. eauto.
  - rewrite linkAlbum_range_cons, Hfile, Hln.
    destruct (@fatal_world (option error) w1) as (w2 & -> & _). eauto.
  - rewrite linkAlbum_range_cons, Hdir, IH. eauto.
  - rewrite linkAlbum_range_cons, Hfile, Hln. eauto.
  - rewrite linkAlbum_range_cons, Hdir, Hsub. eauto.
Qed.

(** And the process ends in [linkAlbum] for no other reason. *)
Lemma exits_step_fails src : forall sourcePath targetPath w w2,
  linkAlbum sourcePath targetPath src w = Exit w2 ->
  step_fails (WholeAlbum sourcePath targetPath src) w.
Proof.
  induction src as [n d i|n d r cs IH] using entry_tree_ind;
    intros sourcePath targetPath w w2; rewrite linkAlbum_unfold; cbv zeta;
    destruct (os_Mkdir _ w) as [[e|] w1|w1] eqn:Hmk;
    try (intros _; eapply fails_Mkdir; exact Hmk); try discriminate.
  - destruct (os_Mkdir_albums (Path.Join targetPath (Path.Base sourcePath)) w)
      as (? & ? & Hmk' & _). congruence.
  - destruct r; [|discriminate]. intros Hrange.
    eapply fails_in_album; [exact Hmk|].
    revert Hrange. generalize (Path.Join targetPath (Path.Base sourcePath)) as tdp.
    intros tdp. clear Hmk. revert w1.
    induction IH as [|file rest Hfile _ IHrest]; intros w1; [discriminate|].
    rewrite linkAlbum_range_cons. destruct (IsDir file) eqn:Hdir.
    + destruct (linkAlbum _ tdp file w1) as [r0 w3|w3] eqn:Hsub.
      * intros Hrest. eapply fails_after_subdir; eauto.
      * intros _. eapply fails_in_subdir; eauto.
    + destruct (os_Link _ _ w1) as [[e|] w3|w3] eqn:Hln.
      * intros _. eapply fails_Link; eauto.
      * intros Hrest. eapply fails_after_Link; eauto.
      * destruct (os_Link_albums (Path.Join sourcePath (Name file))
                    (Path.Join tdp (Name file)) w1) as (? & ? & Hln' & _).
        congruence.
  - destruct (os_Mkdir_albums (Path.Join targetPath (Path.Base sourcePath)) w)
      as (? & ? & Hmk' & _). congruence.
Qed.

(** When the run has come to a new album and, while the album is linked,
    a directory cannot be made or a file cannot be linked, the run ends
    there with the store as it was when the album was looked up. *)
Lemma link_failure_exits
    sourceDir targetDir pre file post s w s1 w1 :
  let contentPath := Path.Join sourceDir (Name file) in
  let album := newAlbum contentPath file in
  linkNewAlbums_range sourceDir targetDir pre s w = Ret s1 w1 ->
  IsDir file = true ->
  isAlbum contentPath file = true ->
  inDb album w1 = Ret false w1 ->
  step_fails (WholeAlbum contentPath targetDir file) w1 ->
  exists w2,
    linkNewAlbums_range sourceDir targetDir (pre ++ file :: post) s w = Exit w2
    /\ albums w2 = albums w1
    /\ forall key, fingerprint album = Ok key -> albums w2 !! key = None.
Proof.
  intros contentPath album Hpre Hdir Halbum Hin Hfails.
  apply step_fails_exits in Hfails as (w2 & Hlink). cbn [run] in Hlink.
  exists w2.
  assert (Hal : albums w2 = albums w1).
  { destruct (linkAlbum_albums file contentPath targetDir w1) as [Hal _].
    rewrite Hlink in Hal. exact Hal. }
  split; [|split; [exact Hal|]].
  - rewrite linkNewAlbums_range_app, Hpre, linkNewAlbums_range_cons, Hdir.
    cbv zeta. fold contentPath. rewrite Halbum. fold album.
    rewrite Hin, Hlink. reflexivity.
  - intros key Hfp. rewrite Hal.
    apply inDb_Ret in Hin as (_ & key' & Hfp' & Hknown).
    assert (key' = key) as -> by congruence.
    symmetry in Hknown. apply bool_decide_eq_false_1 in Hknown.
    destruct (albums w1 !! key) eqn:E; [exfalso; apply Hknown; eauto|reflexivity].
Qed.

Lemma linked_before_cons sourceDir targetDir file rest s w s' w' key :
  linkNewAlbums_range sourceDir targetDir [file] s w = Ret s' w' ->
  linked_before sourceDir targetDir rest s' w' key ->
  linked_before sourceDir targetDir (file :: rest) s w key.
Proof.
  intros Hone (pre & f & post & s1 & w1 & r & w2 & -> & Hpre & Hrest).
  exists (file :: pre), f, post, s1, w1, r, w2.
  split; [reflexivity|]. split; [|exact Hrest].
  change (file :: pre) with ([file] ++ pre).
  rewrite linkNewAlbums_range_app, Hone. exact Hpre.
Qed.

(** One round of the loop: the store is left alone, or the round has
    linked a directory whose fingerprint was not in the store and then
    called [addToDb]. *)
Lemma linkNewAlbums_range_one sourceDir targetDir file s w :
  (exists s', linkNewAlbums_range sourceDir targetDir [file] s w = Ret s' w)
  \/ (exists w', linkNewAlbums_range sourceDir targetDir [file] s w = Exit w'
                 /\ albums w' = albums w)
  \/ (exists s' key r w2 r' w3,
        linkNewAlbums_range sourceDir targetDir [file] s w = Ret s' w3
        /\ IsDir file = true
        /\ fingerprint (newAlbum (Path.Join sourceDir (Name file)) file) = Ok key
        /\ albums w !! key = None
        /\ linkAlbum (Path.Join sourceDir (Name file)) targetDir file w = Ret r w2
        /\ albums w2 = albums w
        /\ addToDb (newAlbum (Path.Join sourceDir (Name file)) file) w2 = Ret r' w3).
Proof.
  rewrite linkNewAlbums_range_cons.
  destruct (IsDir file) eqn:Hdir; [|left; simpl; eauto].
  cbv zeta. destruct (isAlbum _ file); [|left; simpl; eauto].
  destruct (inDb _ w) as [known w0|w0] eqn:Hin.
  2:{ apply inDb_Exit in Hin as (_ & Hal & _). right; left. eauto. }
  apply inDb_Ret in Hin as (-> & key & Hfp & ->).
  destruct (bool_decide _) eqn:Hknown; [left; simpl; eauto|].
  apply bool_decide_eq_false_1 in Hknown.
  assert (Hnone : albums w !! key = None).
  { destruct (albums w !! key) eqn:E; [exfalso; apply Hknown; eauto|reflexivity]. }
  destruct (linkAlbum_albums file (Path.Join sourceDir (Name file)) targetDir w)
    as [Hal _].
  destruct (linkAlbum _ targetDir file w) as [r w2|w2] eqn:Hlink; simpl in Hal.
  2:{ right; left. eauto. }
  destruct (addToDb_never_exits
              (newAlbum (Path.Join sourceDir (Name file)) file) w2)
    as (r' & w3 & Hadd).
  rewrite Hadd. right; right. simpl.
  exists (mkSummary (regFiles s) (incr (newAlbums s)) (oldAlbums s)), key, r, w2, r', w3.
  repeat split; assumption.
Qed.

(** The order of the two steps, over a whole run: a key the run has put
    into the store is the fingerprint of a directory of the listing that
    was not in the store when the run came to it, and for which
    [linkAlbum] had returned before. *)
Lemma registered_after_linked sourceDir targetDir files : forall s w key v,
  albums (world_of (linkNewAlbums_range sourceDir targetDir files s w)) !! key = Some v ->
  albums w !! key = Some v \/ linked_before sourceDir targetDir files s w key.
Proof.
  induction files as [|file rest IH]; intros s w key v; [simpl; auto|].
  change (file :: rest) with ([file] ++ rest) at 1.
  rewrite linkNewAlbums_range_app.
  destruct (linkNewAlbums_range_one sourceDir targetDir file s w)
    as [(s' & Hone)|[(w' & Hone & Hal)|
        (s' & key0 & r & w2 & r' & w3 & Hone & Hdir & Hfp & Hnone & Hlink & Hal & Hadd)]];
    rewrite Hone.
  - intros [Hv|Hl]%IH; [auto|right]. eapply linked_before_cons; eauto.
  - simpl. rewrite Hal. auto.
  - intros [Hv|Hl]%IH; [|right; eapply linked_before_cons; eauto].
    apply addToDb_cases in Hadd as [(key' & Hfp' & _ & _ & ->)|(e & _ & ->)];
      [|left; rewrite <- Hal; exact Hv].
    assert (key' = key0) as -> by congruence. simpl in Hv.
    destruct (decide (key0 = key)) as [<-|Hne].
    + right. exists [], file, rest, s, w, r, w2. repeat split; auto.
    + rewrite lookup_insert_ne, Hal in Hv by exact Hne. auto.
Qed.

(** C7.  In [linkNewAlbums] an album is stored only after [linkAlbum] has
    returned for it: a key a run has put into the store belongs to a
    directory for which [linkAlbum] had returned.  When the run has come
    to a new album and, while the album is linked, a directory cannot be
    made or a file cannot be linked, the run ends there: the store is as
    it was when the album was looked up, and the fingerprint of the album
    is not in it. *)
Theorem link_failure_leaves_unregistered sourceDir targetDir :
  (forall files s w key v,
      albums (world_of (linkNewAlbums_range sourceDir targetDir files s w)) !! key
      = Some v ->
      albums w !! key = Some v \/ linked_before sourceDir targetDir files s w key)
  /\ (forall pre file post s w s1 w1,
        let contentPath := Path.Join sourceDir (Name file) in
        let album := newAlbum contentPath file in
        linkNewAlbums_range sourceDir targetDir pre s w = Ret s1 w1 ->
        IsDir file = true ->
        isAlbum contentPath file = true ->
        inDb album w1 = Ret false w1 ->
        step_fails (WholeAlbum contentPath targetDir file) w1 ->
        exists w2,
          linkNewAlbums_range sourceDir targetDir (pre ++ file :: post) s w = Exit w2
          /\ albums w2 = albums w1
          /\ forall key, fingerprint album = Ok key -> albums w2 !! key = None).
Proof.
  split.
  - apply registered_after_linked.
  - intros pre file post s w s1 w1. apply link_failure_exits.
Qed.

(** With a source directory that cannot be read [linkNewAlbums] goes on
    with an empty listing. *)
Lemma linkNewAlbums_unreadable_root sourceDir targetDir w e :
  ReadDir (fs w) sourceDir = Err e -> flock w = Free ->
  linkNewAlbums sourceDir targetDir w = Ret (mkSummary 0 0 0) w.
Proof.
  intros Hread Hlock. unfold linkNewAlbums, bind, ioutil_ReadDir, Bolt.Open.
  rewrite Hread, Hlock. simpl. destruct w; simpl in *. subst. reflexivity.
Qed.

(** [updateAlbumDb] ends the run on a directory that cannot be read. *)
Lemma updateAlbumDb_unreadable_root musicDir w e :
  ReadDir (fs w) musicDir = Err e -> updateAlbumDb musicDir w = fatal w.
Proof.
  intros Hread. unfold updateAlbumDb, bind, ioutil_ReadDir.
  rewrite Hread. reflexivity.
Qed.

(** C5.  The source directory of [linkNewAlbums] does not exist: the run
    is not ended, it reports that nothing was skipped, linked or known.
    [updateAlbumDb] on the same directory ends the run. *)
Theorem unreadable_source_root_goes_on :
  ReadDir (fs Examples.two_dirs) "/missing" = Err "no such file or directory"
  /\ linkNewAlbums "/missing" "/lib" Examples.two_dirs
     = Ret (mkSummary 0 0 0) Examples.two_dirs
  /\ updateAlbumDb "/missing" Examples.two_dirs = Exit Examples.two_dirs.
Proof. repeat split; vm_compute; reflexivity. Qed.

(** C2.  The album [box] has a listing whose encoding is longer than a
    key of the store may be.  The first run links it and counts it as
    new, and the store stays empty, the error of [addToDb] being dropped.
    The second run does not find the album in the store, fails to make
    the directory that is there by now and ends without a summary. *)
Theorem second_run_exits_after_dropped_insert :
  match linkNewAlbums "/dl" "/lib" Examples.long_listing with
  | Ret s1 w1 =>
      s1 = mkSummary 0 1 0
      /\ albums w1 = ∅
      /\ addToDb (newAlbum "/dl/box" Examples.box_set) w1
         = Ret (Some "key too large") w1
      /\ option_map (fun d => length (match list_dir d with Ok l => l | Err _ => [] end))
                    (lookup_path (fs w1) "/lib/box") = Some 140%nat
      /\ match linkNewAlbums "/dl" "/lib" w1 with
         | Ret _ _ => False
         | Exit w2 => albums w2 = ∅
         end
  | Exit _ => False
  end.
Proof.
  vm_compute. split; [reflexivity|]. split; [reflexivity|].
  split; [reflexivity|]. split; reflexivity.
Qed.


(** Where the fingerprint of the album of an entry cannot be computed,
    both loops end the run when they look the album up. *)
Lemma encode_error_ends_loops sourceDir targetDir file rest s w e :
  IsDir file = true ->
  isAlbum (Path.Join sourceDir (Name file)) file = true ->
  fingerprint (newAlbum (Path.Join sourceDir (Name file)) file) = Err e ->
  linkNewAlbums_range sourceDir targetDir (file :: rest) s w = fatal w
  /\ updateAlbumDb_range sourceDir (file :: rest) w = fatal w.
Proof.
  intros Hdir Halbum Hfp.
  rewrite linkNewAlbums_range_cons, updateAlbumDb_range_cons, Hdir.
  cbv zeta. rewrite Halbum.
  destruct (inDb_cases (newAlbum (Path.Join sourceDir (Name file)) file) w)
    as [(key & Hfp' & _)|(e' & _ & ->)]; [congruence|].
  unfold fatal. auto.
Qed.






End Linking.

(* ===================================================================== *)
(** ** Running twice *)
(* ===================================================================== *)

Section Twice.

Variables (sourceDir targetDir : string).

Implicit Types (w : world) (s : summary) (files : list entry).

(** What one round of a run that returns does to the store and the lock. *)
Lemma linkNewAlbums_range_step file rest s w s1 w1 :
  linkNewAlbums_range sourceDir targetDir (file :: rest) s w = Ret s1 w1 ->
  exists s' w',
    linkNewAlbums_range sourceDir targetDir rest s' w' = Ret s1 w1
    /\ flock w' = flock w
    /\ (forall key, is_Some (albums w !! key) -> is_Some (albums w' !! key))
    /\ (storable sourceDir file -> known_in sourceDir (albums w') file).
Proof.
  rewrite linkNewAlbums_range_cons. unfold known_in.
  destruct (IsDir file) eqn:Hdir;
    [|intros Hrest; do 2 eexists; split; [exact Hrest|];
      repeat split; auto; discriminate].
  cbv zeta. destruct (isAlbum _ file) eqn:Halbum;
    [|intros Hrest; do 2 eexists; split; [exact Hrest|];
      repeat split; auto; discriminate].
  set (album := newAlbum (Path.Join sourceDir (Name file)) file).
  destruct (inDb album w) as [known w0|w0] eqn:Hin; [|discriminate].
  apply inDb_Ret in Hin as (-> & key & Hfp & ->).
  destruct (bool_decide _) eqn:Hknown.
  { apply bool_decide_eq_true_1 in Hknown. intros Hrest.
    do 2 eexists. split; [exact Hrest|]. repeat split; eauto. }
  destruct (linkAlbum_albums file (Path.Join sourceDir (Name file)) targetDir w)
    as [Hal Hret].
  destruct (linkAlbum _ targetDir file w) as [r w2|w2]; [|discriminate].
  destruct (Hret r w2 eq_refl) as [_ Hfl]. simpl in Hal.
  destruct (addToDb album w2) as [r' w3|w3] eqn:Hadd; [|discriminate].
  intros Hrest. do 2 eexists. split; [exact Hrest|].
  pose proof Hadd as [(key' & Hfp' & _ & _ & ->)|(e & -> & ->)]%addToDb_cases.
  - assert (key' = key) as -> by congruence. simpl. rewrite Hal.
    repeat split; [exact Hfl| |].
    + intros k Hk. rewrite lookup_insert_is_Some. destruct (decide (key = k)); auto.
    + intros _ _ _. exists key. split; [exact Hfp|].
      rewrite lookup_insert_eq. eauto.
  - repeat split; [exact Hfl|intros k; rewrite Hal; auto|].
    intros Hstore _ _. exfalso.
    destruct (Hstore key Hfp) as [Hmax Hval]. fold album in Hval.
    unfold addToDb in Hadd. unfold fingerprint in Hfp. fold album in Hfp.
    rewrite Hfp in Hadd.
    rewrite Put_accepts in Hadd; [discriminate| |exact Hval].
    split; [|exact Hmax].
    apply Encode_key_nonempty in Hfp. destruct key; [congruence|simpl; lia].
Qed.

(** A run that returns leaves every album it met in the store, if the
    store accepts their keys, and holds the lock it started with. *)
Lemma linkNewAlbums_range_registers files : forall s w s1 w1,
  linkNewAlbums_range sourceDir targetDir files s w = Ret s1 w1 ->
  flock w1 = flock w
  /\ (forall key, is_Some (albums w !! key) -> is_Some (albums w1 !! key))
  /\ (Forall (storable sourceDir) files ->
      Forall (known_in sourceDir (albums w1)) files).
Proof.
  induction files as [|file rest IH]; intros s w s1 w1 Hrun.
  - injection Hrun as <- <-. repeat split; auto.
  - apply linkNewAlbums_range_step in Hrun as (s' & w' & Hrest & Hfl & Hmono & Hfile).
    destruct (IH _ _ _ _ Hrest) as (Hfl' & Hmono' & Hrest').
    repeat split; [congruence|auto|].
    intros Hst. inversion Hst as [|? ? Hst1 Hst2]; subst.
    constructor; [|auto].
    intros Hdir Halbum. destruct (Hfile Hst1 Hdir Halbum) as (key & Hfp & Hk).
    exists key. auto.
Qed.

(** A run over a listing whose albums are all in the store links nothing
    and changes nothing. *)
Lemma linkNewAlbums_range_all_known files : forall s w,
  Forall (known_in sourceDir (albums w)) files ->
  linkNewAlbums_range sourceDir targetDir files s w
  = Ret (all_known_summary sourceDir files s) w.
Proof.
  induction files as [|file rest IH]; intros s w Hall; [reflexivity|].
  inversion Hall as [|? ? Hfile Hrest]; subst.
  rewrite linkNewAlbums_range_cons. simpl.
  destruct (IsDir file) eqn:Hdir; [|apply IH, Hrest].
  destruct (isAlbum _ file) eqn:Halbum; [|apply IH, Hrest].
  destruct (Hfile Hdir Halbum) as (key & Hfp & Hk).
  rewrite (inDb_present _ key w Hfp Hk). apply IH, Hrest.
Qed.

Lemma all_known_summary_newAlbums files : forall s,
  newAlbums (all_known_summary sourceDir files s) = newAlbums s.
Proof.
  induction files as [|file rest IH]; intros s; [reflexivity|].
  simpl. destruct (IsDir file); [destruct (isAlbum _ file)|]; rewrite IH; reflexivity.
Qed.

(** X14.  Idempotence, where the store took every album.  If a run of
    [linkNewAlbums] returns, the store accepts the keys and names of the
    albums of the source, and the listing of the source is the same
    afterwards, then a second run returns too, links no album, counts
    every album of the listing as known, and leaves the world as it is. *)
Theorem linkNewAlbums_twice w s1 w1 :
  let listing root :=
    match ReadDir root sourceDir with Ok l => l | Err _ => [] end in
  linkNewAlbums sourceDir targetDir w = Ret s1 w1 ->
  Forall (storable sourceDir) (listing (fs w)) ->
  ReadDir (fs w1) sourceDir = ReadDir (fs w) sourceDir ->
  linkNewAlbums sourceDir targetDir w1
  = Ret (all_known_summary sourceDir (listing (fs w)) (mkSummary 0 0 0)) w1
  /\ newAlbums (all_known_summary sourceDir (listing (fs w)) (mkSummary 0 0 0)) = 0.
Proof.
  intros listing Hrun Hst Hsame.
  split; [|apply all_known_summary_newAlbums].
  unfold linkNewAlbums, bind, ioutil_ReadDir, Bolt.Open in Hrun |- *.
  rewrite Hsame. fold (listing (fs w)) in Hrun |- *.
  destruct (flock w) eqn:Hlock;
    try (destruct (@fatal_world summary w) as (w' & Hf & _);
         rewrite Hf in Hrun; discriminate).
  destruct (linkNewAlbums_range _ _ _ _ (set_flock HeldBySelf w))
    as [s' w'|w'] eqn:Hrange; [|discriminate].
  apply linkNewAlbums_range_registers in Hrange as (Hfl & _ & Hknown).
  specialize (Hknown Hst). simpl in Hfl, Hrun.
  rewrite Hfl in Hrun. injection Hrun as <- <-. simpl.
  rewrite linkNewAlbums_range_all_known by exact Hknown.
  reflexivity.
Qed.

End Twice.

(* ===================================================================== *)
(** ** The statements at work *)
(* ===================================================================== *)

Section Instances.

Import Examples.

(** The subdirectory [art] decides, and the audio file after it is not
    looked at. *)
Lemma isAlbum_listing_order_witness :
  isAlbum "/dl/A" art_first
  = isAlbum "/dl/A/art" (Dir "art" 1 true [File "front.png" 1 6]).
Proof.
  apply (proj1 (isAlbum_listing_order "/dl/A" "A" 1 _)
           [File "a.jpg" 1 5] (Dir "art" 1 true [File "front.png" 1 6])
           [File "z.flac" 1 7]).
  - reflexivity.
  - repeat constructor.
  - reflexivity.
Defined.

Lemma inDb_after_addToDb_witness :
  let album := newAlbum "/dl/A" (Dir "A" 1 true [File "x.flac" 1 10; File "y.flac" 1 11]) in
  addToDb album two_dirs = Ret None A_known
  /\ inDb album A_known = Ret true A_known.
Proof.
  intros album.
  assert (Hadd : addToDb album two_dirs = Ret None A_known)
    by (vm_compute; reflexivity).
  split; [exact Hadd|].
  apply (proj1 (inDb_after_addToDb album two_dirs A_known Hadd)).
Defined.

Lemma fingerprint_injective_witness :
  Gob.wire ["a.flac"; "b.flac"] <> Gob.wire ["b.flac"; "a.flac"].
Proof.
  apply (proj2 (fingerprint_injective ["a.flac"; "b.flac"] ["b.flac"; "a.flac"]
                  _ _ eq_refl eq_refl)).
  discriminate.
Defined.

Lemma addToDb_overwrites_witness :
  exists w1,
    addToDb (newAlbum "/dl/A (copy)" A_again) A_known = Ret None w1
    /\ albums w1 !! Gob.wire ["x.flac"; "y.flac"]
       = Some (Gob.bytes_of_string "A (copy)")
    /\ size (albums w1) = 1%nat.
Proof.
  destruct (addToDb_overwrites (newAlbum "/dl/A (copy)" A_again)
              (Gob.wire ["x.flac"; "y.flac"]) (Gob.bytes_of_string "A") A_known)
    as (w1 & Hadd & Hnew & _ & Hsize & _).
  - reflexivity.
  - apply lookup_insert_eq.
  - apply map_Forall_insert_2; [|apply map_Forall_empty].
    unfold key_ok. vm_compute. split; [reflexivity|discriminate].
  - vm_compute. discriminate.
  - exists w1. repeat split; [exact Hadd|exact Hnew|].
    rewrite Hsize. apply map_size_singleton.
Defined.

Lemma newAlbum_unreadable_witness :
  Contents (newAlbum "/dl/P" locked_1) = []
  /\ fingerprint (newAlbum "/dl/Q" locked_2) = fingerprint (newAlbum "/dl/P" locked_1).
Proof.
  destruct (proj2 newAlbum_unreadable "/dl/P" locked_1 "permission denied"
              "/dl/Q" locked_2 "permission denied" eq_refl eq_refl)
    as (Hc & _ & Hf & _).
  split; [exact Hc|exact Hf].
Defined.

(** The file of the album lies on another device than the library: the
    directory is made, the link fails, and nothing is stored. *)
Lemma link_failure_leaves_unregistered_witness :
  let A := Dir "A" 2 true [File "x.flac" 2 10] in
  exists w2,
    linkNewAlbums_range "/dl" "/lib" [A] (mkSummary 0 0 0) other_device = Exit w2
    /\ albums w2 = ∅
    /\ forall key, fingerprint (newAlbum "/dl/A" A) = Ok key -> albums w2 !! key = None.
Proof.
  intros A.
  apply (proj2 (link_failure_leaves_unregistered "/dl" "/lib") [] A []
           (mkSummary 0 0 0) other_device (mkSummary 0 0 0) other_device).
  - reflexivity.
  - reflexivity.
  - reflexivity.
  - vm_compute. reflexivity.
  - eapply fails_in_album; [vm_compute; reflexivity|].
    eapply fails_Link; [reflexivity|vm_compute; reflexivity].
Defined.

End Instances.

Section Checks.

Example Ext_flac : Path.Ext "/music/A/01 intro.flac" = ".flac".
Proof. reflexivity. Qed.
Example Ext_none : Path.Ext "/music/A.b/cover" = "".
Proof. reflexivity. Qed.
Example Ext_last_dot : Path.Ext "a.tar.gz" = ".gz".
Proof. reflexivity. Qed.
Example Base_plain : Path.Base "/music/A/" = "A".
Proof. reflexivity. Qed.
Example Base_root : Path.Base "///" = "/".
Proof. reflexivity. Qed.
Example Clean_dots : Path.Clean "/a//b/./../c/" = "/a/c".
Proof. reflexivity. Qed.
Example Clean_up : Path.Clean "../../a/../.." = "../../..".
Proof. reflexivity. Qed.
Example Clean_rooted_up : Path.Clean "/../a" = "/a".
Proof. reflexivity. Qed.
Example Clean_empty : Path.Clean "" = ".".
Proof. reflexivity. Qed.
Example Join_plain : Path.Join "/music" "A" = "/music/A".
Proof. reflexivity. Qed.
Example Join_root : Path.Join "/" "A" = "/A".
Proof. reflexivity. Qed.
Example Join_here : Path.Join "." "A" = "A".
Proof. reflexivity. Qed.

Example gob_ab :
  Gob.Encode ["a"; "b"] =
  Ok [x0c; xff; x81; x02; x01; x02; xff; x82; x00; x01; x0c; x00; x00;
      x08; xff; x82; x00; x02; x01; x61; x01; x62].
Proof. reflexivity. Qed.

Example isAlbum_two_dirs :
  FS.ReadDir (fs Examples.two_dirs) "/dl"
  = Ok [Dir "A" 1 true [File "x.flac" 1 10; File "y.flac" 1 11];
        Dir "B" 1 true [File "cover.jpg" 1 12]]
  /\ isAlbum "/dl/A" (Dir "A" 1 true [File "x.flac" 1 10; File "y.flac" 1 11]) = true
  /\ isAlbum "/dl/B" (Dir "B" 1 true [File "cover.jpg" 1 12]) = false.
Proof. repeat split. Qed.

(** A whole run on [two_dirs]: [A] is linked and stored under the
    fingerprint of its two names, [B] is left alone. *)
Example main_two_dirs :
  exists w1,
    main ["flaclink"; "/dl"; "/lib"] Examples.two_dirs
    = Ret (Some (mkSummary 0 1 0)) w1
    /\ FS.ReadDir (fs w1) "/lib"
       = Ok [Dir "A" 1 true [File "x.flac" 1 10; File "y.flac" 1 11]]
    /\ map_to_list (albums w1)
       = [(Gob.wire ["x.flac"; "y.flac"], Gob.bytes_of_string "A")].
Proof. eexists. split; [vm_compute; reflexivity|]. split; vm_compute; reflexivity. Qed.

End Checks.

(* ===================================================================== *)
(** ** Further properties of the run *)
(* ===================================================================== *)

Section Trees.

Lemma find_child_Some n cs c :
  find_child n cs = Some c -> In c cs /\ Name c = n.
Proof.
  unfold find_child. intros H. apply find_some in H as [Hin Hn].
  apply String.eqb_eq in Hn. auto.
Qed.

Lemma grows_refl e : grows e e.
Proof.
  induction e as [n d i|n d r cs IH] using entry_tree_ind; constructor.
  intros m c Hfind. exists c. split; [exact Hfind|].
  apply find_child_Some in Hfind as [Hin _].
  rewrite List.Forall_forall in IH. apply IH, Hin.
Qed.

Lemma grows_trans e1 : forall e2 e3, grows e1 e2 -> grows e2 e3 -> grows e1 e3.
Proof.
  induction e1 as [n d i|n d r cs IH] using entry_tree_ind;
    intros e2 e3 H12 H23; inversion H12; subst; inversion H23; subst;
    constructor.
  intros m c Hfind.
  match goal with H : forall n c, find_child n cs = _ -> _ |- _ =>
    destruct (H m c Hfind) as (c2 & Hfind2 & Hg2) end.
  match goal with H : forall n c, find_child n children' = _ -> _ |- _ =>
    destruct (H m c2 Hfind2) as (c3 & Hfind3 & Hg3) end.
  exists c3. split; [exact Hfind3|].
  apply find_child_Some in Hfind as [Hin _].
  rewrite List.Forall_forall in IH. eapply IH; eauto.
Qed.

Lemma grows_Name e e' : grows e e' -> Name e' = Name e.
Proof. destruct 1; reflexivity. Qed.

Lemma grows_IsDir e e' : grows e e' -> IsDir e' = IsDir e.
Proof. destruct 1; reflexivity. Qed.

(** What a path led to has grown with the tree. *)
Lemma grows_walk names : forall e e' x,
  grows e e' -> walk names e = Some x ->
  exists x', walk names e' = Some x' /\ grows x x'.
Proof.
  induction names as [|n rest IH]; intros e e' x Hg Hw.
  - injection Hw as <-. exists e'. split; [reflexivity|exact Hg].
  - destruct Hg as [? ? ?|name dev readable cs cs' Hcs]; [discriminate|].
    simpl in Hw. destruct (find_child n cs) as [c|] eqn:Hc; [|discriminate].
    destruct (Hcs n c Hc) as (c' & Hc' & Hg').
    simpl. rewrite Hc'. eapply IH; eauto.
Qed.

Lemma find_child_insert_other e cs n :
  n <> Name e -> find_child n (insert_by_name e cs) = find_child n cs.
Proof.
  intros Hne. induction cs as [|c cs IH]; simpl.
  - destruct (String.eqb_spec (Name e) n); [congruence|reflexivity].
  - destruct (String.ltb (Name e) (Name c)); simpl.
    + destruct (String.eqb_spec (Name e) n); [congruence|reflexivity].
    + destruct (String.eqb (Name c) n); [reflexivity|exact IH].
Qed.

Lemma find_child_insert_same e cs :
  find_child (Name e) cs = None ->
  find_child (Name e) (insert_by_name e cs) = Some e.
Proof.
  induction cs as [|c cs IH]; simpl; intros Hnone.
  - rewrite String.eqb_refl. reflexivity.
  - destruct (String.eqb (Name c) (Name e)) eqn:Hc; [discriminate|].
    destruct (String.ltb (Name e) (Name c)); simpl.
    + rewrite String.eqb_refl. reflexivity.
    + rewrite Hc. apply IH, Hnone.
Qed.

(** A new entry makes a directory grow. *)
Lemma add_child_grows name make parent parent' :
  (forall dev e, make dev = Some e -> Name e = name) ->
  add_child name make parent = Some parent' ->
  grows parent parent'
  /\ exists pname dev readable cs e,
       parent = Dir pname dev readable cs /\ make dev = Some e
       /\ find_child name cs = None
       /\ parent' = Dir pname dev readable (insert_by_name e cs).
Proof.
  intros Hmake. destruct parent as [|pname dev readable cs]; [discriminate|].
  simpl. destruct (find_child name cs) eqn:Hfree; [discriminate|].
  destruct (make dev) as [e|] eqn:He; [|discriminate].
  intros [= <-]. split.
  - constructor. intros n c Hc. exists c. split; [|apply grows_refl].
    rewrite find_child_insert_other; [exact Hc|].
    rewrite (Hmake _ _ He). intros ->. congruence.
  - exists pname, dev, readable, cs, e. auto.
Qed.

Lemma update_child_find n g cs cs' :
  update_child n g cs = Some cs' ->
  (forall c c', g c = Some c' -> grows c c') ->
  (forall m c, find_child m cs = Some c ->
     exists c', find_child m cs' = Some c' /\ grows c c')
  /\ exists c c', find_child n cs = Some c /\ g c = Some c'
                  /\ find_child n cs' = Some c'.
Proof.
  intros Hupd Hg. revert cs' Hupd.
  induction cs as [|c0 cs IH]; intros cs' Hupd; [discriminate|].
  simpl in Hupd. destruct (String.eqb (Name c0) n) eqn:Hn.
  - destruct (g c0) as [c0'|] eqn:Hc0; [|discriminate]. injection Hupd as <-.
    pose proof (grows_Name _ _ (Hg _ _ Hc0)) as Hname.
    split.
    + intros m c. simpl. rewrite Hname.
      destruct (String.eqb (Name c0) m).
      * intros [= <-]. exists c0'. split; [reflexivity|eauto].
      * intros Hc. exists c. split; [exact Hc|apply grows_refl].
    + exists c0, c0'. simpl. rewrite Hname, Hn. auto.
  - destruct (update_child n g cs) as [rest'|] eqn:Hrest; [|discriminate].
    injection Hupd as <-. destruct (IH _ eq_refl) as (Hall & c & c' & Hc & Hgc & Hc').
    split.
    + intros m x. simpl. destruct (String.eqb (Name c0) m).
      * intros [= <-]. exists c0. split; [reflexivity|apply grows_refl].
      * apply Hall.
    + exists c, c'. simpl. rewrite Hn. auto.
Qed.

(** An update that makes the entry it reaches grow makes the tree grow,
    and the path leads to the new entry. *)
Lemma update_grows names f : forall e e',
  (forall x x', f x = Some x' -> grows x x') ->
  update names f e = Some e' ->
  grows e e'
  /\ exists x x', walk names e = Some x /\ f x = Some x'
                  /\ walk names e' = Some x'.
Proof.
  intros e e' Hf. revert e e'.
  induction names as [|n rest IH]; intros e e' Hupd.
  - simpl in Hupd. split; [eauto|]. exists e, e'. auto.
  - destruct e as [|name dev readable cs]; [discriminate|]. simpl in Hupd.
    destruct (update_child n (update rest f) cs) as [cs'|] eqn:Hcs; [|discriminate].
    injection Hupd as <-.
    apply update_child_find in Hcs as (Hall & c & c' & Hc & Hgc & Hc');
      [|intros x x' Hx; apply (IH _ _ Hx)].
    split; [constructor; exact Hall|].
    destruct (IH _ _ Hgc) as (_ & x & x' & Hwx & Hfx & Hwx').
    exists x, x'. simpl. rewrite Hc, Hc'. auto.
Qed.

Lemma walk_app names1 names2 e :
  walk (names1 ++ names2) e
  = match walk names1 e with Some x => walk names2 x | None => None end.
Proof.
  revert e. induction names1 as [|n rest IH]; intros e; [reflexivity|].
  simpl. destruct e as [|name dev readable cs]; [reflexivity|].
  destruct (find_child n cs); [apply IH|reflexivity].
Qed.

Lemma split_last_app names parent name :
  split_last names = Some (parent, name) -> names = parent ++ [name].
Proof.
  unfold split_last. destruct (rev names) as [|x xs] eqn:Hrev; [discriminate|].
  intros [= <- <-]. rewrite <- (rev_involutive names), Hrev. reflexivity.
Qed.

(** [create]: the tree grows, and the path leads to the entry made, in
    the directory the parent path led to. *)
Lemma create_grows root path make root' :
  (forall name dev e, make name dev = Some e -> Name e = name) ->
  create root path make = Some root' ->
  grows root root'
  /\ exists parent name pname dev readable cs e,
       steps path = parent ++ [name]
       /\ walk parent root = Some (Dir pname dev readable cs)
       /\ find_child name cs = None
       /\ make name dev = Some e
       /\ lookup_path root' path = Some e.
Proof.
  intros Hmake. unfold create, lookup_path.
  destruct (split_last (steps path)) as [[parent name]|] eqn:Hsplit; [|discriminate].
  apply split_last_app in Hsplit. intros Hupd.
  apply update_grows in Hupd as (Hg & x & x' & Hwx & Hadd & Hwx');
    [|intros y y' Hy; eapply add_child_grows; [apply Hmake|exact Hy]].
  split; [exact Hg|].
  apply add_child_grows in Hadd as (_ & pname & dev & readable & cs & e & -> & He & Hfree & ->);
    [|apply Hmake].
  exists parent, name, pname, dev, readable, cs, e.
  repeat split; try assumption.
  rewrite Hsplit, walk_app, Hwx'. simpl.
  rewrite <- (Hmake _ _ _ He), find_child_insert_same; [reflexivity|].
  rewrite (Hmake _ _ _ He). exact Hfree.
Qed.

Lemma grows_lookup_File root root' path n d i :
  grows root root' ->
  lookup_path root path = Some (File n d i) ->
  lookup_path root' path = Some (File n d i).
Proof.
  intros Hg Hl. destruct (grows_walk _ _ _ _ Hg Hl) as (x' & Hx' & Hgx).
  inversion Hgx; subst. exact Hx'.
Qed.

Lemma made_grows root root' p : grows root root' -> made root p -> made root' p.
Proof.
  intros Hg. destruct p as [t|s t]; simpl.
  - intros (n & d & r & cs & Hl).
    destruct (grows_walk _ _ _ _ Hg Hl) as (x' & Hx' & Hgx).
    inversion Hgx; subst. unfold is_directory, lookup_path. eauto.
  - intros (n1 & n2 & d & i & H1 & H2).
    exists n1, n2, d, i. eauto using grows_lookup_File.
Qed.

Lemma Mkdir_grows root path root' :
  FS.Mkdir root path = Ok root' ->
  grows root root' /\ is_directory root' path.
Proof.
  unfold FS.Mkdir.
  destruct (create root path _) as [r|] eqn:Hc; [|discriminate].
  intros [= <-].
  apply create_grows in Hc as (Hg & parent & name & pname & dev & rd & cs & e & _ & _ & _ & He & Hl);
    [|intros ? ? ? [= <-]; reflexivity].
  split; [exact Hg|]. injection He as <-. unfold is_directory. eauto.
Qed.

Lemma Link_grows root oldname newname root' :
  FS.Link root oldname newname = Ok root' ->
  grows root root' /\ same_file root' oldname newname.
Proof.
  unfold FS.Link.
  destruct (lookup_path root oldname) as [[n fdev ino|]|] eqn:Hold; try discriminate.
  destruct (create root newname _) as [r|] eqn:Hc; [|discriminate].
  intros [= <-].
  apply create_grows in Hc as (Hg & parent & name & pname & dev & rd & cs & e & _ & _ & _ & He & Hl).
  2:{ intros ? ? ?. destruct (N.eqb _ _); [intros [= <-]; reflexivity|discriminate]. }
  split; [exact Hg|].
  destruct (N.eqb_spec dev fdev) as [->|]; [|discriminate]. injection He as <-.
  exists n, name, fdev, ino. split; [|exact Hl].
  eapply grows_lookup_File; eauto.
Qed.

Lemma products_readable sourcePath targetPath name dev contents :
  products sourcePath targetPath (Dir name dev true contents)
  = MadeDir (Path.Join targetPath (Path.Base sourcePath))
    :: products_range sourcePath (Path.Join targetPath (Path.Base sourcePath)) contents.
Proof.
  simpl. f_equal. induction contents as [|file rest IH]; [reflexivity|].
  simpl. rewrite IH. reflexivity.
Qed.

End Trees.

Section Replication.

Implicit Types (w : world).

Lemma os_Mkdir_grows path w r w1 :
  os_Mkdir path w = Ret r w1 ->
  grows (fs w) (fs w1) /\ (r = None -> is_directory (fs w1) path).
Proof.
  unfold os_Mkdir. destruct (FS.Mkdir (fs w) path) as [root'|e] eqn:Hm.
  - intros [= <- <-]. apply Mkdir_grows in Hm as [Hg Hd]. simpl. auto.
  - intros [= <- <-]. split; [apply grows_refl|discriminate].
Qed.

Lemma os_Link_grows oldname newname w r w1 :
  os_Link oldname newname w = Ret r w1 ->
  grows (fs w) (fs w1) /\ (r = None -> same_file (fs w1) oldname newname).
Proof.
  unfold os_Link. destruct (FS.Link (fs w) oldname newname) as [root'|e] eqn:Hl.
  - intros [= <- <-]. apply Link_grows in Hl as [Hg Hs]. simpl. auto.
  - intros [= <- <-]. split; [apply grows_refl|discriminate].
Qed.

Lemma fatal_fs {A} w : fs (world_of (@fatal A w)) = fs w.
Proof. unfold fatal. destruct (flock w); reflexivity. Qed.

(** [linkAlbum] only adds to the file system, and when it returns all it
    had to make is there. *)
Lemma linkAlbum_makes src : forall sourcePath targetPath w,
  grows (fs w) (fs (world_of (linkAlbum sourcePath targetPath src w)))
  /\ (forall r w1, linkAlbum sourcePath targetPath src w = Ret r w1 ->
        Forall (made (fs w1)) (products sourcePath targetPath src)).
Proof.
  induction src as [n d i|n d rd cs IH] using entry_tree_ind;
    intros sourcePath targetPath w; rewrite linkAlbum_unfold; cbv zeta;
    destruct (os_Mkdir _ w) as [[e|] w1|w1] eqn:Hmk;
    try (destruct (os_Mkdir_albums (Path.Join targetPath (Path.Base sourcePath)) w)
           as (? & ? & Hmk' & _); congruence);
    apply os_Mkdir_grows in Hmk as [Hg Hdir].
  - rewrite fatal_fs. split; [exact Hg|].
    destruct (@fatal_world (option error) w1) as (? & -> & _). discriminate.
  - split; [exact Hg|]. intros r w2 [= <- <-]. simpl.
    constructor; [apply Hdir; reflexivity|constructor].
  - rewrite fatal_fs. split; [exact Hg|].
    destruct (@fatal_world (option error) w1) as (? & -> & _). discriminate.
  - destruct rd.
    2:{ split; [exact Hg|]. intros r w2 [= <- <-]. simpl.
        constructor; [apply Hdir; reflexivity|constructor]. }
    rewrite products_readable. specialize (Hdir eq_refl).
    set (tdp := Path.Join targetPath (Path.Base sourcePath)) in *.
    assert (Hrange : forall w1,
      grows (fs w1) (fs (world_of (linkAlbum_range sourcePath tdp cs w1)))
      /\ (forall r w2, linkAlbum_range sourcePath tdp cs w1 = Ret r w2 ->
            Forall (made (fs w2)) (products_range sourcePath tdp cs))).
    { clear Hg Hdir w w1. induction IH as [|file rest Hfile _ IHrest]; intros w1.
      - simpl. split; [apply grows_refl|]. constructor.
      - rewrite linkAlbum_range_cons. cbn [products_range].
        destruct (IsDir file).
        + destruct (Hfile (Path.Join sourcePath (Name file)) tdp w1) as [Hg1 Hm1].
          destruct (linkAlbum _ tdp file w1) as [r0 w2|w2]; simpl in Hg1.
          * destruct (IHrest w2) as [Hg2 Hm2].
            split; [eapply grows_trans; eauto|].
            intros r w3 Hret. apply Forall_app. split; [|eauto].
            eapply Forall_impl; [apply (Hm1 _ _ eq_refl)|].
            intros p. apply made_grows. rewrite Hret in Hg2. exact Hg2.
          * split; [exact Hg1|discriminate].
        + destruct (os_Link _ _ w1) as [[e|] w2|w2] eqn:Hln;
            try (destruct (os_Link_albums (Path.Join sourcePath (Name file))
                             (Path.Join tdp (Name file)) w1) as (? & ? & Hln' & _);
                 congruence);
            apply os_Link_grows in Hln as [Hg1 Hs].
          * rewrite fatal_fs. split; [exact Hg1|].
            destruct (@fatal_world (option error) w2) as (? & -> & _). discriminate.
          * destruct (IHrest w2) as [Hg2 Hm2].
            split; [eapply grows_trans; eauto|].
            intros r w3 Hret. apply Forall_app. split; [|eauto].
            constructor; [|constructor].
            rewrite Hret in Hg2.
            eapply (made_grows _ _ (MadeLink _ _)); [exact Hg2|].
            apply Hs. reflexivity. }
    destruct (Hrange w1) as [Hg2 Hm2].
    split; [eapply grows_trans; eauto|].
    intros r w2 Hret. constructor; [|eauto].
    rewrite Hret in Hg2. eapply (made_grows _ _ (MadeDir _)); eauto.
Qed.

End Replication.


Section DetectionMore.

(** X5.  [isAlbum] answers true only where there is a [.flac] file below. *)
Theorem isAlbum_sound (d : entry) : forall dirPath,
  isAlbum dirPath d = true -> holds_flac dirPath d.
Proof.
  induction d as [n dv i|n dv r cs IH] using entry_tree_ind; intros dirPath;
    [discriminate|].
  destruct r; [|discriminate]. rewrite isAlbum_readable.
  induction IH as [|file rest Hfile _ IHrest]; [discriminate|].
  simpl. destruct (IsDir file) eqn:Hdir.
  - intros Hsub. eapply flac_below; [left; reflexivity|exact Hdir|].
    apply Hfile, Hsub.
  - destruct (String.eqb_spec (Path.Ext (Path.Join dirPath (Name file))) ".flac")
      as [Hext|_].
    + intros _. eapply flac_here; [left; reflexivity|exact Hdir|exact Hext].
    + intros Hrest. specialize (IHrest Hrest).
      inversion IHrest; subst.
      * eapply flac_here; [right; eassumption|assumption..].
      * eapply flac_below; [right; eassumption|assumption..].
Qed.

(** X6.  The answer of [isAlbum] is the same wherever the directory lies. *)
Theorem isAlbum_any_path (d : entry) : forall dirPath dirPath',
  well_named d -> isAlbum dirPath d = isAlbum dirPath' d.
Proof.
  induction d as [n dv i|n dv r cs IH] using entry_tree_ind;
    intros dirPath dirPath' Hwn; [reflexivity|].
  destruct r; [|reflexivity]. rewrite !isAlbum_readable.
  inversion Hwn as [|? ? ? ? Hcs]; subst. clear Hwn.
  induction IH as [|file rest Hfile _ IHrest]; [reflexivity|].
  inversion Hcs as [|? ? [Hv Hwf] Hrest]; subst.
  simpl. destruct (IsDir file).
  - apply Hfile, Hwf.
  - rewrite !Ext_Join by exact Hv.
    destruct (String.eqb _ _); [reflexivity|]. apply IHrest, Hrest.
Qed.

End DetectionMore.


Section Counting.

Variables (sourceDir targetDir : string).




End Counting.


Section Runs.

Implicit Types (w : world) (s : summary).

Lemma extends_same w w' :
  fs w' = fs w -> albums w' = albums w -> extends w w'.
Proof.
  intros Hfs Hal. unfold extends. rewrite Hfs, Hal.
  split; [apply grows_refl|]. auto.
Qed.

Lemma extends_refl w : extends w w.
Proof. apply extends_same; reflexivity. Qed.

Lemma extends_trans w1 w2 w3 : extends w1 w2 -> extends w2 w3 -> extends w1 w3.
Proof.
  intros (Hg1 & Hk1 & Hs1) (Hg2 & Hk2 & Hs2).
  split; [eapply grows_trans; eauto|]. split; auto.
Qed.

Lemma fatal_extends {A} w : extends w (world_of (@fatal A w)).
Proof. destruct (@fatal_world A w) as (w1 & -> & Hfs & Hal). apply extends_same; auto. Qed.

Lemma inDb_extends album w : extends w (world_of (inDb album w)).
Proof.
  destruct (inDb album w) as [known w1|w1] eqn:Hin.
  - apply inDb_Ret in Hin as [-> _]. apply extends_refl.
  - apply inDb_Exit in Hin as (Hfs & Hal & _). apply extends_same; auto.
Qed.

(** [addToDb] on an album that is not in the store only adds. *)
Lemma addToDb_extends album w r w1 key :
  fingerprint album = Ok key -> albums w !! key = None ->
  addToDb album w = Ret r w1 -> extends w w1.
Proof.
  intros Hfp Hnone Hadd. pose proof (addToDb_keeps_store_ok _ _ _ _ Hadd) as Hok.
  apply addToDb_cases in Hadd as [(key' & Hfp' & _ & _ & ->)|(e & _ & ->)];
    [|apply extends_refl].
  assert (key' = key) as -> by congruence.
  split; [apply grows_refl|]. split; [|exact Hok].
  intros k v Hk. simpl. rewrite lookup_insert_ne; [exact Hk|congruence].
Qed.

Lemma linkAlbum_extends sourcePath targetPath src w :
  extends w (world_of (linkAlbum sourcePath targetPath src w)).
Proof.
  destruct (linkAlbum_makes src sourcePath targetPath w) as [Hg _].
  destruct (linkAlbum_albums src sourcePath targetPath w) as [Hal _].
  unfold extends. rewrite Hal. auto.
Qed.

Lemma linkNewAlbums_range_extends sourceDir targetDir files : forall s w,
  extends w (world_of (linkNewAlbums_range sourceDir targetDir files s w)).
Proof.
  induction files as [|file rest IH]; intros s w; [apply extends_refl|].
  rewrite linkNewAlbums_range_cons.
  destruct (IsDir file); [|apply IH]. cbv zeta.
  destruct (isAlbum _ file); [|apply IH].
  pose proof (inDb_extends (newAlbum (Path.Join sourceDir (Name file)) file) w) as Hin.
  destruct (inDb _ w) as [known w0|w0] eqn:Hdb; [|exact Hin].
  apply inDb_Ret in Hdb as (-> & key & Hfp & ->).
  destruct (bool_decide _) eqn:Hknown; [apply IH|].
  apply bool_decide_eq_false_1 in Hknown.
  assert (Hnone : albums w !! key = None).
  { destruct (albums w !! key) eqn:E; [exfalso; apply Hknown; eauto|reflexivity]. }
  pose proof (linkAlbum_extends (Path.Join sourceDir (Name file)) targetDir file w) as Hl.
  destruct (linkAlbum_albums file (Path.Join sourceDir (Name file)) targetDir w) as [Hal _].
  destruct (linkAlbum _ _ file w) as [r w2|w2]; [|exact Hl]. simpl in Hl, Hal.
  destruct (addToDb _ w2) as [r' w3|w3] eqn:Hadd.
  2:{ destruct (addToDb_never_exits
                  (newAlbum (Path.Join sourceDir (Name file)) file) w2)
        as (? & ? & Hadd'). congruence. }
  eapply extends_trans; [exact Hl|]. eapply extends_trans; [|apply IH].
  eapply addToDb_extends; [exact Hfp| |exact Hadd]. rewrite Hal. exact Hnone.
Qed.

Lemma updateAlbumDb_range_extends musicDir files : forall w,
  extends w (world_of (updateAlbumDb_range musicDir files w)).
Proof.
  induction files as [|file rest IH]; intros w; [apply extends_refl|].
  rewrite updateAlbumDb_range_cons.
  destruct (IsDir file); [|apply IH]. cbv zeta.
  destruct (isAlbum _ file); [|apply IH].
  pose proof (inDb_extends (newAlbum (Path.Join musicDir (Name file)) file) w) as Hin.
  destruct (inDb _ w) as [known w0|w0] eqn:Hdb; [|exact Hin].
  apply inDb_Ret in Hdb as (-> & key & Hfp & ->).
  destruct (bool_decide _) eqn:Hknown; [apply IH|].
  apply bool_decide_eq_false_1 in Hknown.
  assert (Hnone : albums w !! key = None).
  { destruct (albums w !! key) eqn:E; [exfalso; apply Hknown; eauto|reflexivity]. }
  destruct (addToDb _ w) as [r' w3|w3] eqn:Hadd.
  2:{ destruct (addToDb_never_exits
                  (newAlbum (Path.Join musicDir (Name file)) file) w)
        as (? & ? & Hadd'). congruence. }
  eapply extends_trans; [|apply IH].
  eapply addToDb_extends; eauto.
Qed.

Lemma set_flock_extends l w : extends w (set_flock l w).
Proof. apply extends_same; reflexivity. Qed.

Lemma Close_extends w : extends w (world_of (Bolt.Close w)).
Proof. unfold Bolt.Close. simpl. destruct (flock w); apply extends_same; reflexivity. Qed.

Lemma linkNewAlbums_extends sourceDir targetDir w :
  extends w (world_of (linkNewAlbums sourceDir targetDir w)).
Proof.
  unfold linkNewAlbums, bind, ioutil_ReadDir, Bolt.Open.
  destruct (flock w); try apply fatal_extends.
  pose proof (linkNewAlbums_range_extends sourceDir targetDir
                (match ReadDir (fs w) sourceDir with Ok l => l | Err _ => [] end)
                (mkSummary 0 0 0) (set_flock HeldBySelf w)) as Hrange.
  destruct (linkNewAlbums_range _ _ _ _ _) as [s' w'|w']; simpl in *.
  - eapply extends_trans; [apply set_flock_extends|].
    eapply extends_trans; [exact Hrange|]. apply Close_extends.
  - eapply extends_trans; [apply set_flock_extends|exact Hrange].
Qed.

Lemma updateAlbumDb_extends musicDir w :
  extends w (world_of (updateAlbumDb musicDir w)).
Proof.
  unfold updateAlbumDb, bind, ioutil_ReadDir, Bolt.Open.
  destruct (ReadDir (fs w) musicDir) as [files|e]; [|apply fatal_extends].
  destruct (flock w); try apply fatal_extends.
  pose proof (updateAlbumDb_range_extends musicDir files (set_flock HeldBySelf w))
    as Hrange.
  destruct (updateAlbumDb_range _ _ _) as [[] w'|w']; simpl in *.
  - eapply extends_trans; [apply set_flock_extends|].
    eapply extends_trans; [exact Hrange|]. apply Close_extends.
  - eapply extends_trans; [apply set_flock_extends|exact Hrange].
Qed.

(** X2.  A whole run only adds: the files that were there are there as they
    were, the store has the entries it had, and its keys are keys the
    store takes. *)
Theorem main_only_adds (Args : list string) w :
  let w' := world_of (main Args w) in
  (forall path name dev ino,
      lookup_path (fs w) path = Some (File name dev ino) ->
      lookup_path (fs w') path = Some (File name dev ino))
  /\ (forall path, is_directory (fs w) path -> is_directory (fs w') path)
  /\ (forall key v, albums w !! key = Some v -> albums w' !! key = Some v)
  /\ (store_ok (albums w) -> store_ok (albums w')).
Proof.
  assert (Hext : extends w (world_of (main Args w))).
  { unfold main. destruct Args as [|a0 [|a1 [|a2 [|a3 rest]]]]; try apply extends_refl.
    unfold bind.
    pose proof (updateAlbumDb_extends (Path.Clean a2) w) as H1.
    destruct (updateAlbumDb (Path.Clean a2) w) as [r w1|w1]; [|exact H1].
    pose proof (linkNewAlbums_extends (Path.Clean a1) (Path.Clean a2) w1) as H2.
    destruct (linkNewAlbums _ _ w1) as [s w2|w2];
      simpl in *; eapply extends_trans; eauto. }
  destruct Hext as (Hg & Hk & Hs). cbv zeta.
  split; [|split; [|split; assumption]].
  - intros path name dev ino. apply grows_lookup_File, Hg.
  - intros path. apply (made_grows _ _ (MadeDir path)), Hg.
Qed.

End Runs.

Section Lock.

Implicit Types (w : world) (s : summary).

Lemma fatal_lock {A} w : flock w = HeldBySelf -> lock_end (@fatal A w).
Proof. unfold fatal. intros ->. reflexivity. Qed.

Lemma inDb_lock album w : flock w = HeldBySelf -> lock_end (inDb album w).
Proof.
  intros Hl. destruct (inDb_cases album w) as [(key & _ & ->)|(e & _ & ->)].
  - exact Hl.
  - apply fatal_lock, Hl.
Qed.

Lemma addToDb_flock album w r w1 : addToDb album w = Ret r w1 -> flock w1 = flock w.
Proof.
  intros [(key & _ & _ & _ & ->)|(e & _ & ->)]%addToDb_cases; reflexivity.
Qed.

Lemma linkAlbum_lock src : forall sourcePath targetPath w,
  flock w = HeldBySelf -> lock_end (linkAlbum sourcePath targetPath src w).
Proof.
  induction src as [n d i|n d rd cs IH] using entry_tree_ind;
    intros sourcePath targetPath w Hl; rewrite linkAlbum_unfold; cbv zeta;
    destruct (os_Mkdir_albums (Path.Join targetPath (Path.Base sourcePath)) w)
      as ([e|] & w1 & -> & _ & Hfl); rewrite Hl in Hfl;
    try (apply fatal_lock, Hfl); try exact Hfl.
  destruct rd; [|exact Hfl].
  generalize (Path.Join targetPath (Path.Base sourcePath)) as tdp. intros tdp.
  clear Hl w. revert w1 Hfl.
  induction IH as [|file rest Hfile _ IHrest]; intros w1 Hfl; [exact Hfl|].
  rewrite linkAlbum_range_cons. destruct (IsDir file).
  - specialize (Hfile (Path.Join sourcePath (Name file)) tdp w1 Hfl).
    destruct (linkAlbum _ tdp file w1) as [r0 w2|w2]; [|exact Hfile].
    apply IHrest, Hfile.
  - destruct (os_Link_albums (Path.Join sourcePath (Name file))
                (Path.Join tdp (Name file)) w1) as ([e|] & w2 & -> & _ & Hfl2);
      rewrite Hfl in Hfl2.
    + apply fatal_lock, Hfl2.
    + apply IHrest, Hfl2.
Qed.

Lemma linkNewAlbums_range_lock sourceDir targetDir files : forall s w,
  flock w = HeldBySelf ->
  lock_end (linkNewAlbums_range sourceDir targetDir files s w).
Proof.
  induction files as [|file rest IH]; intros s w Hl; [exact Hl|].
  rewrite linkNewAlbums_range_cons.
  destruct (IsDir file); [|apply IH, Hl]. cbv zeta.
  destruct (isAlbum _ file); [|apply IH, Hl].
  pose proof (inDb_lock (newAlbum (Path.Join sourceDir (Name file)) file) w Hl) as Hin.
  destruct (inDb _ w) as [[] w0|w0]; [apply IH, Hin| |exact Hin].
  pose proof (linkAlbum_lock file (Path.Join sourceDir (Name file)) targetDir w0 Hin)
    as Hlink.
  destruct (linkAlbum _ _ file w0) as [r w2|w2]; [|exact Hlink].
  destruct (addToDb _ w2) as [r' w3|w3] eqn:Hadd.
  - apply IH. rewrite (addToDb_flock _ _ _ _ Hadd). exact Hlink.
  - destruct (addToDb_never_exits
                (newAlbum (Path.Join sourceDir (Name file)) file) w2)
      as (? & ? & Hadd'). congruence.
Qed.

Lemma updateAlbumDb_range_lock musicDir files : forall w,
  flock w = HeldBySelf -> lock_end (updateAlbumDb_range musicDir files w).
Proof.
  induction files as [|file rest IH]; intros w Hl; [exact Hl|].
  rewrite updateAlbumDb_range_cons.
  destruct (IsDir file); [|apply IH, Hl]. cbv zeta.
  destruct (isAlbum _ file); [|apply IH, Hl].
  pose proof (inDb_lock (newAlbum (Path.Join musicDir (Name file)) file) w Hl) as Hin.
  destruct (inDb _ w) as [[] w0|w0]; [apply IH, Hin| |exact Hin].
  destruct (addToDb _ w0) as [r' w3|w3] eqn:Hadd.
  - apply IH. rewrite (addToDb_flock _ _ _ _ Hadd). exact Hin.
  - destruct (addToDb_never_exits
                (newAlbum (Path.Join musicDir (Name file)) file) w0)
      as (? & ? & Hadd'). congruence.
Qed.

Lemma linkNewAlbums_unlocks sourceDir targetDir w :
  flock w = Free -> flock (world_of (linkNewAlbums sourceDir targetDir w)) = Free.
Proof.
  intros Hl. unfold linkNewAlbums, bind, ioutil_ReadDir, Bolt.Open. rewrite Hl.
  pose proof (linkNewAlbums_range_lock sourceDir targetDir
                (match ReadDir (fs w) sourceDir with Ok l => l | Err _ => [] end)
                (mkSummary 0 0 0) (set_flock HeldBySelf w) eq_refl) as Hrange.
  destruct (linkNewAlbums_range _ _ _ _ _) as [s' w'|w']; simpl in *.
  - rewrite Hrange. reflexivity.
  - exact Hrange.
Qed.

Lemma updateAlbumDb_unlocks musicDir w :
  flock w = Free -> flock (world_of (updateAlbumDb musicDir w)) = Free.
Proof.
  intros Hl. unfold updateAlbumDb, bind, ioutil_ReadDir, Bolt.Open.
  destruct (ReadDir (fs w) musicDir) as [files|e].
  2:{ unfold fatal. rewrite Hl. exact Hl. }
  rewrite Hl.
  pose proof (updateAlbumDb_range_lock musicDir files (set_flock HeldBySelf w) eq_refl)
    as Hrange.
  destruct (updateAlbumDb_range _ _ _) as [[] w'|w']; simpl in *.
  - rewrite Hrange. reflexivity.
  - exact Hrange.
Qed.

(** X9.  The lock on the store.  A run that finds the lock free leaves it
    free, however the run ends; a run that finds the store locked by
    another process ends at once and changes nothing. *)
Theorem main_lock (Args : list string) w :
  (flock w = Free -> flock (world_of (main Args w)) = Free)
  /\ (flock w = HeldByOther -> length Args = 3%nat -> main Args w = Exit w).
Proof.
  split.
  - intros Hl. unfold main.
    destruct Args as [|a0 [|a1 [|a2 [|a3 rest]]]]; try exact Hl.
    unfold bind.
    pose proof (updateAlbumDb_unlocks (Path.Clean a2) w Hl) as H1.
    destruct (updateAlbumDb (Path.Clean a2) w) as [r w1|w1]; [|exact H1].
    pose proof (linkNewAlbums_unlocks (Path.Clean a1) (Path.Clean a2) w1 H1) as H2.
    destruct (linkNewAlbums _ _ w1) as [s w2|w2]; exact H2.
  - intros Hl Hlen.
    destruct Args as [|a0 [|a1 [|a2 [|a3 rest]]]]; try discriminate.
    unfold main, bind, updateAlbumDb, bind, ioutil_ReadDir, Bolt.Open, fatal.
    destruct w as [root store l]. simpl in Hl. subst l. cbn [fs flock].
    destruct (ReadDir root (Path.Clean a2)); reflexivity.
Qed.

End Lock.


Section BackfillTwice.

Variable musicDir : string.

Implicit Types (w : world) (files : list entry).

Lemma Put_rejects key value w :
  ~ (key_ok key /\ Z.of_nat (length value) <= Bolt.MaxValueSize) ->
  exists e, Bolt.Put key value w = Ret (Some e) w.
Proof.
  unfold Bolt.Put, key_ok. intros Hno.
  destruct (Z.eqb_spec (Z.of_nat (length key)) 0); [eauto|].
  destruct (Z.ltb_spec Bolt.MaxKeySize (Z.of_nat (length key))); [eauto|].
  destruct (Z.ltb_spec Bolt.MaxValueSize (Z.of_nat (length value))); [eauto|].
  exfalso. apply Hno. lia.
Qed.

Lemma settled_mono b b' file :
  (forall key, is_Some (b !! key) -> is_Some (b' !! key)) ->
  settled musicDir b file -> settled musicDir b' file.
Proof.
  intros Hmono Hs Hdir Halbum. destruct (Hs Hdir Halbum) as (key & Hfp & [Hk|Hno]).
  - exists key. auto.
  - exists key. auto.
Qed.

Lemma extends_is_Some w w' key :
  extends w w' -> is_Some (albums w !! key) -> is_Some (albums w' !! key).
Proof. intros (_ & Hk & _) [v Hv]. exists v. auto. Qed.

(** A scan that returns leaves every album of the listing settled. *)
Lemma updateAlbumDb_range_settles files : forall w w1,
  updateAlbumDb_range musicDir files w = Ret tt w1 ->
  Forall (settled musicDir (albums w1)) files.
Proof.
  induction files as [|file rest IH]; intros w w1 Hrun; [constructor|].
  rewrite updateAlbumDb_range_cons in Hrun.
  assert (Hskip : forall w', updateAlbumDb_range musicDir rest w' = Ret tt w1 ->
                    settled musicDir (albums w') file ->
                    Forall (settled musicDir (albums w1)) (file :: rest)).
  { intros w' Hrest Hfile. constructor; [|eapply IH; eauto].
    eapply settled_mono; [|exact Hfile]. intros key.
    pose proof (updateAlbumDb_range_extends musicDir rest w') as Hext.
    rewrite Hrest in Hext. apply extends_is_Some, Hext. }
  destruct (IsDir file) eqn:Hdir;
    [|apply (Hskip w Hrun); intros ?; congruence].
  cbv zeta in Hrun. destruct (isAlbum _ file) eqn:Halbum;
    [|apply (Hskip w Hrun); intros ? ?; congruence].
  destruct (inDb _ w) as [known w0|w0] eqn:Hin; [|discriminate].
  apply inDb_Ret in Hin as (-> & key & Hfp & ->).
  destruct (bool_decide _) eqn:Hknown.
  { apply bool_decide_eq_true_1 in Hknown. apply (Hskip w Hrun).
    intros _ _. exists key. auto. }
  destruct (addToDb _ w) as [r' w3|w3] eqn:Hadd; [|discriminate].
  apply (Hskip w3 Hrun). intros _ _. exists key. split; [exact Hfp|].
  pose proof Hadd as [(key' & Hfp' & _ & _ & ->)|(e & -> & ->)]%addToDb_cases.
  - left. assert (key' = key) as -> by congruence. simpl.
    rewrite lookup_insert_eq. eauto.
  - right. intros [Hk Hv]. unfold addToDb in Hadd. unfold fingerprint in Hfp.
    rewrite Hfp, (Put_accepts _ _ _ Hk Hv) in Hadd. discriminate.
Qed.

(** A scan over a listing of settled albums changes nothing. *)
Lemma updateAlbumDb_range_settled files : forall w,
  Forall (settled musicDir (albums w)) files ->
  updateAlbumDb_range musicDir files w = Ret tt w.
Proof.
  induction files as [|file rest IH]; intros w Hall; [reflexivity|].
  inversion Hall as [|? ? Hfile Hrest]; subst.
  rewrite updateAlbumDb_range_cons.
  destruct (IsDir file) eqn:Hdir; [|apply IH, Hrest]. cbv zeta.
  destruct (isAlbum _ file) eqn:Halbum; [|apply IH, Hrest].
  destruct (Hfile Hdir Halbum) as (key & Hfp & Hcase).
  destruct (inDb_cases (newAlbum (Path.Join musicDir (Name file)) file) w)
    as [(key' & Hfp' & ->)|(e & He & _)]; [|congruence].
  assert (key' = key) as -> by congruence.
  destruct (bool_decide _) eqn:Hknown; [apply IH, Hrest|].
  apply bool_decide_eq_false_1 in Hknown.
  destruct Hcase as [Hk|Hno]; [contradiction|].
  unfold addToDb. unfold fingerprint in Hfp. rewrite Hfp.
  destruct (Put_rejects key _ w Hno) as (e & ->). apply IH, Hrest.
Qed.

(** X10.  Back-filling twice: after a run of [updateAlbumDb] that returns, a
    second run on the same directory returns and leaves the world as it
    is. *)
Theorem updateAlbumDb_twice w r w1 :
  updateAlbumDb musicDir w = Ret r w1 ->
  updateAlbumDb musicDir w1 = Ret None w1.
Proof.
  unfold updateAlbumDb, bind, ioutil_ReadDir, Bolt.Open. intros Hrun.
  destruct (ReadDir (fs w) musicDir) as [files|e] eqn:Hread.
  2:{ destruct (@fatal_world (option error) w) as (w' & Hf & _).
      rewrite Hf in Hrun. discriminate. }
  destruct (flock w) eqn:Hlock;
    try (destruct (@fatal_world (option error) w) as (w' & Hf & _);
         rewrite Hf in Hrun; discriminate).
  destruct (updateAlbumDb_range musicDir files (set_flock HeldBySelf w))
    as [[] w'|w'] eqn:Hrange; [|discriminate].
  pose proof (updateAlbumDb_range_lock musicDir files (set_flock HeldBySelf w) eq_refl)
    as Hl.
  pose proof (updateAlbumDb_range_frame musicDir files (set_flock HeldBySelf w))
    as (Hfs & _).
  rewrite Hrange in Hl, Hfs. apply updateAlbumDb_range_settles in Hrange.
  destruct w' as [root store l]. simpl in Hl, Hfs, Hrun, Hrange. subst l root.
  injection Hrun as _ <-. cbn [fs flock set_flock albums].
  rewrite Hread. unfold set_flock. cbn [fs flock albums]. cbv beta iota.
  rewrite (updateAlbumDb_range_settled files (World (fs w) store HeldBySelf))
    by exact Hrange.
  reflexivity.
Qed.

End BackfillTwice.

Section Dedup.

Implicit Types (w : world) (s : summary).

(** The key of an album is the encoding of the names of its listing. *)
Lemma fingerprint_names path d files key :
  list_dir d = Ok files ->
  fingerprint (newAlbum path d) = Ok key ->
  key = Gob.wire (map Name files)
  /\ Z.of_nat (length (Gob.valueBody (map Name files))) < Gob.tooBig.
Proof.
  unfold fingerprint. rewrite newAlbum_Contents. intros ->. apply Encode_Ok.
Qed.

(** X13.  Two directories have the same key exactly when their listings have
    the same names in the same order: the place, the name and what lies
    below the entries do not count. *)
Theorem same_key_iff_same_names path1 d1 files1 key1 path2 d2 files2 key2 :
  list_dir d1 = Ok files1 -> list_dir d2 = Ok files2 ->
  fingerprint (newAlbum path1 d1) = Ok key1 ->
  fingerprint (newAlbum path2 d2) = Ok key2 ->
  key1 = key2 <-> map Name files1 = map Name files2.
Proof.
  intros Hl1 Hl2 [-> Hb1]%(fingerprint_names _ _ _ _ Hl1)
                 [-> Hb2]%(fingerprint_names _ _ _ _ Hl2).
  split; [|intros ->; reflexivity].
  apply wire_inj; assumption.
Qed.

(** After a back-fill that returns, an album of the library that the
    store takes is in the store. *)
Lemma updateAlbumDb_registers musicDir w r w1 files file :
  updateAlbumDb musicDir w = Ret r w1 ->
  ReadDir (fs w) musicDir = Ok files ->
  In file files -> storable musicDir file ->
  known_in musicDir (albums w1) file.
Proof.
  unfold updateAlbumDb, bind, ioutil_ReadDir, Bolt.Open.
  intros Hrun Hread Hin Hst. rewrite Hread in Hrun.
  destruct (flock w);
    try (destruct (@fatal_world (option error) w) as (w' & Hf & _);
         rewrite Hf in Hrun; discriminate).
  destruct (updateAlbumDb_range musicDir files (set_flock HeldBySelf w))
    as [[] w'|w'] eqn:Hrange; [|discriminate].
  apply updateAlbumDb_range_settles in Hrange.
  assert (Hal : albums w1 = albums w').
  { simpl in Hrun. injection Hrun as _ <-. destruct (flock w'); reflexivity. }
  rewrite Hal. rewrite List.Forall_forall in Hrange.
  intros Hdir Halbum.
  destruct (Hrange file Hin Hdir Halbum) as (key & Hfp & [Hk|Hno]);
    [exists key; auto|].
  exfalso. apply Hno. destruct (Hst key Hfp) as [Hmax Hval].
  split; [|exact Hval]. split; [|exact Hmax].
  apply Encode_key_nonempty in Hfp. destruct key; [congruence|simpl; lia].
Qed.

(** X11.  A source album with the listing of an album of the library is not
    linked after a back-fill: the run counts it as known and goes on in
    the same world. *)
Theorem library_album_not_linked_again
    musicDir w r w1 files lib sourceDir targetDir file rest s :
  updateAlbumDb musicDir w = Ret r w1 ->
  ReadDir (fs w) musicDir = Ok files ->
  In lib files -> IsDir lib = true ->
  isAlbum (Path.Join musicDir (Name lib)) lib = true ->
  storable musicDir lib ->
  IsDir file = true ->
  isAlbum (Path.Join sourceDir (Name file)) file = true ->
  Contents (newAlbum (Path.Join sourceDir (Name file)) file)
  = Contents (newAlbum (Path.Join musicDir (Name lib)) lib) ->
  linkNewAlbums_range sourceDir targetDir (file :: rest) s w1
  = linkNewAlbums_range sourceDir targetDir rest
      (mkSummary (regFiles s) (newAlbums s) (incr (oldAlbums s))) w1.
Proof.
  intros Hrun Hread Hin Hdir Halbum Hst Hfdir Hfalbum Hsame.
  destruct (updateAlbumDb_registers _ _ _ _ _ _ Hrun Hread Hin Hst Hdir Halbum)
    as (key & Hfp & Hk).
  rewrite linkNewAlbums_range_cons, Hfdir. cbv zeta. rewrite Hfalbum.
  rewrite (inDb_present _ key w1); [reflexivity| |exact Hk].
  unfold fingerprint in *. rewrite Hsame. exact Hfp.
Qed.

(** X12.  What a run stores for a new album: under the encoding of the names
    of its listing, the name of its directory. *)
Theorem new_album_entry sourceDir targetDir name dev contents s w s1 w1 :
  let file := Dir name dev true contents in
  valid_name name ->
  isAlbum (Path.Join sourceDir name) file = true ->
  inDb (newAlbum (Path.Join sourceDir name) file) w = Ret false w ->
  storable sourceDir file ->
  linkNewAlbums_range sourceDir targetDir [file] s w = Ret s1 w1 ->
  albums w1 !! Gob.wire (map Name contents) = Some (Gob.bytes_of_string name)
  /\ s1 = mkSummary (regFiles s) (incr (newAlbums s)) (oldAlbums s).
Proof.
  intros file Hv Halbum Hin Hst Hrun.
  rewrite linkNewAlbums_range_cons in Hrun. cbn [IsDir Name file] in Hrun.
  cbv zeta in Hrun. fold file in Hrun. rewrite Halbum, Hin in Hrun.
  destruct (linkAlbum _ _ file w) as [r w2|w2] eqn:Hlink; [|discriminate].
  destruct (addToDb _ w2) as [r' w3|w3] eqn:Hadd; [|discriminate].
  injection Hrun as <- <-. split; [|reflexivity].
  apply inDb_Ret in Hin as (_ & key & Hfp & _).
  destruct (fingerprint_names _ file contents key eq_refl Hfp) as [-> _].
  destruct (Hst _ Hfp) as [Hmax Hval]. cbn [Name file] in Hmax, Hval.
  unfold addToDb in Hadd. unfold fingerprint in Hfp. rewrite Hfp in Hadd.
  rewrite Put_accepts in Hadd; [|split; [|exact Hmax]|exact Hval].
  - injection Hadd as _ <-. simpl. rewrite lookup_insert_eq.
    rewrite (Base_Join sourceDir name Hv). reflexivity.
  - apply Encode_key_nonempty in Hfp.
    destruct (Gob.wire (map Name contents)); [congruence|simpl; lia].
Qed.

End Dedup.

Section ReplicationMore.

Implicit Types (w : world).



Lemma update_child_fails n g cs c :
  find_child n cs = Some c -> g c = None -> update_child n g cs = None.
Proof.
  induction cs as [|c0 cs IH]; [discriminate|]. simpl.
  destruct (String.eqb (Name c0) n).
  - intros [= ->] ->. reflexivity.
  - intros Hc Hg. rewrite (IH Hc Hg). reflexivity.
Qed.

Lemma update_fails names f : forall e x,
  walk names e = Some x -> f x = None -> update names f e = None.
Proof.
  induction names as [|n rest IH]; intros e x Hw Hf.
  - injection Hw as ->. exact Hf.
  - destruct e as [|name dev rd cs]; [discriminate|]. simpl in *.
    destruct (find_child n cs) as [c|] eqn:Hc; [|discriminate].
    rewrite (update_child_fails n _ cs c Hc (IH _ _ Hw Hf)). reflexivity.
Qed.

(** Nothing is made where something is. *)
Lemma create_taken root path make e :
  lookup_path root path = Some e -> create root path make = None.
Proof.
  unfold lookup_path, create. intros Hl.
  destruct (split_last (steps path)) as [[parent name]|] eqn:Hsplit; [|reflexivity].
  apply split_last_app in Hsplit. rewrite Hsplit, walk_app in Hl.
  destruct (walk parent root) as [x|] eqn:Hx; [|discriminate].
  eapply update_fails; [exact Hx|].
  destruct x as [|pname dev rd cs]; [reflexivity|]. simpl in Hl |- *.
  destruct (find_child name cs); [reflexivity|discriminate].
Qed.

Lemma linkAlbum_taken sourcePath targetPath src w e :
  lookup_path (fs w) (Path.Join targetPath (Path.Base sourcePath)) = Some e ->
  exists w1, linkAlbum sourcePath targetPath src w = Exit w1
             /\ fs w1 = fs w /\ albums w1 = albums w.
Proof.
  intros Htaken. rewrite linkAlbum_unfold. cbv zeta.
  unfold os_Mkdir, FS.Mkdir. rewrite (create_taken _ _ _ _ Htaken).
  apply fatal_world.
Qed.

(** X3.  An album is not linked over an entry of its name: when the target
    directory has an entry of the name of the source, [linkAlbum] ends
    the process and has made nothing. *)
Theorem linkAlbum_name_taken sourcePath targetPath src w e :
  lookup_path (fs w) (Path.Join targetPath (Path.Base sourcePath)) = Some e ->
  exists w1, linkAlbum sourcePath targetPath src w = Exit w1
             /\ fs w1 = fs w /\ albums w1 = albums w.
Proof. apply linkAlbum_taken. Qed.

End ReplicationMore.


Section KeySize.

Import Gob.

Lemma length_encodeUint x : (1 <= length (encodeUint x) <= 9)%nat.
Proof.
  unfold encodeUint.
  pose proof (Z.mod_pos_bound x (2 ^ 64) ltac:(lia)) as Hx.
  destruct (Z.leb_spec (x mod 2 ^ 64) 127); simpl; [lia|].
  rewrite length_big_endian.
  destruct (byte_len_bounds (x mod 2 ^ 64) ltac:(lia)) as [Hb _]. lia.
Qed.

Lemma length_encodeArray l :
  Z.of_nat (length (encodeArray l)) <= key_bound l - 25.
Proof.
  unfold encodeArray, key_bound. rewrite length_app.
  pose proof (length_encodeUint (Z.of_nat (length l))) as Hn.
  assert (Z.of_nat (length (concat (map encString l)))
          <= fold_right (fun s acc => Z.of_nat (String.length s) + 9 + acc) 0 l).
  { induction l as [|s l IH]; simpl; [lia|].
    rewrite length_app. unfold encString at 1. rewrite length_app, length_bytes_of_string.
    pose proof (length_encodeUint (Z.of_nat (String.length s))).
    assert (1 <= length (encodeUint (Z.of_nat (length l))) <= 9)%nat
      by apply length_encodeUint.
    apply IH in H0. lia. }
  lia.
Qed.

Lemma length_wire l : Z.of_nat (length (wire l)) <= key_bound l.
Proof.
  pose proof (length_encodeArray l) as Ha.
  unfold wire. rewrite length_app.
  change (length (message typeDescriptor)) with 13%nat.
  unfold message. rewrite length_app.
  pose proof (length_encodeUint (Z.of_nat (length (valueBody l)))).
  unfold valueBody in *. rewrite !length_app in *.
  change (length (encodeInt sliceOfStringId)) with 2%nat in *.
  simpl length in *. lia.
Qed.

(** X15.  An album with a listing of moderate size is stored: when the bound
    on its key is within the longest key of the store, [addToDb] returns
    nil and the album is in the store under its fingerprint. *)
Theorem addToDb_small_listing (album : Album) (w : world) :
  key_bound (Contents album) <= Bolt.MaxKeySize ->
  Z.of_nat (length (bytes_of_string (DirName album))) <= Bolt.MaxValueSize ->
  fingerprint album = Ok (wire (Contents album))
  /\ addToDb album w
     = Ret None (set_albums (<[wire (Contents album) := bytes_of_string (DirName album)]>
                               (albums w)) w).
Proof.
  intros Hkey Hval.
  pose proof (length_wire (Contents album)) as Hw.
  pose proof (length_encodeArray (Contents album)) as Ha.
  assert (Hfp : Encode (Contents album) = Ok (wire (Contents album))).
  { unfold Encode.
    destruct (Z.leb_spec tooBig (Z.of_nat (length (valueBody (Contents album)))))
      as [Hbig|]; [|reflexivity].
    exfalso. unfold valueBody in Hbig. rewrite !length_app in Hbig.
    change (length (encodeInt sliceOfStringId)) with 2%nat in Hbig.
    simpl length in Hbig. unfold tooBig, Bolt.MaxKeySize in *. lia. }
  split; [exact Hfp|].
  unfold addToDb. rewrite Hfp. apply Put_accepts; [|exact Hval].
  split; [|lia].
  apply Encode_key_nonempty in Hfp.
  destruct (wire (Contents album)); [congruence|simpl; lia].
Qed.

End KeySize.

Section DetectedListing.

(** X7.  A directory that is detected as an album can be read and has
    entries: its key is not the key of the empty listing, the one of the
    directories that cannot be read. *)
Theorem detected_album_listing dirPath path (d : entry) :
  isAlbum dirPath d = true ->
  (exists files, list_dir d = Ok files /\ files <> []
                 /\ Contents (newAlbum path d) = map Name files)
  /\ (forall key, fingerprint (newAlbum path d) = Ok key -> key <> Gob.wire []).
Proof.
  intros Halbum.
  assert (Hfiles : exists files, list_dir d = Ok files /\ files <> []).
  { destruct d as [|n dv [] cs]; try discriminate.
    exists cs. split; [reflexivity|]. intros ->. discriminate. }
  destruct Hfiles as (files & Hl & Hne). split.
  - exists files. split; [exact Hl|]. split; [exact Hne|].
    rewrite newAlbum_Contents, Hl. reflexivity.
  - intros key [-> Hb]%(fingerprint_names _ _ _ _ Hl) Heq.
    apply wire_inj in Heq; [|exact Hb|vm_compute; reflexivity].
    destruct files; [congruence|discriminate].
Qed.

End DetectedListing.

Section ExitReasons.

(** X4.  [linkAlbum] ends the process exactly when a directory cannot be made
    or a file cannot be linked; a directory that cannot be read is no
    reason. *)
Theorem linkAlbum_exits_iff sourcePath targetPath src (w : world) :
  (exists w2, linkAlbum sourcePath targetPath src w = Exit w2)
  <-> step_fails (WholeAlbum sourcePath targetPath src) w.
Proof.
  split.
  - intros (w2 & Hexit). eapply exits_step_fails, Hexit.
  - intros Hfails. apply step_fails_exits in Hfails. exact Hfails.
Qed.

End ExitReasons.


Import Examples MoreExamples.

Ltac name_ok :=
  split; [repeat constructor|repeat split; discriminate].

Ltac storable_ok :=
  let key := fresh "key" in let Hkey := fresh "Hkey" in
  intros key Hkey; vm_compute in Hkey; injection Hkey as <-;
  vm_compute; split; discriminate.


Lemma linkAlbum_name_taken_witness :
  exists w1, linkAlbum "/dl/A" "/lib" (Dir "A" 1 true [File "x.flac" 1 10]) name_taken
             = Exit w1
             /\ fs w1 = fs name_taken /\ albums w1 = albums name_taken.
Proof.
  apply (linkAlbum_name_taken "/dl/A" "/lib" _ name_taken
           (Dir "A" 1 true [File "notes.txt" 1 20])).
  vm_compute. reflexivity.
Defined.

Lemma isAlbum_sound_witness : holds_flac "/dl/N" nested.
Proof. apply isAlbum_sound. reflexivity. Defined.

Lemma isAlbum_any_path_witness :
  isAlbum "/dl/N" nested = isAlbum "/mnt/music/incoming/N" nested.
Proof.
  apply isAlbum_any_path.
  constructor. constructor; [split; [name_ok|constructor]|].
  constructor; [|constructor]. split; [name_ok|].
  constructor. constructor; [|constructor]. split; [name_ok|constructor].
Defined.

Lemma detected_album_listing_witness :
  exists files, list_dir nested = Ok files /\ files <> []
                /\ Contents (newAlbum "/dl/N" nested) = map Name files.
Proof.
  apply (proj1 (detected_album_listing "/dl/N" "/dl/N" nested eq_refl)).
Defined.


Lemma updateAlbumDb_twice_witness :
  let w1 := world_of (updateAlbumDb "/dl" two_dirs) in
  updateAlbumDb "/dl" w1 = Ret None w1.
Proof.
  intros w1.
  apply (updateAlbumDb_twice "/dl" two_dirs None w1).
  vm_compute. reflexivity.
Defined.

Lemma library_album_not_linked_again_witness :
  let w1 := world_of (updateAlbumDb "/lib" in_library) in
  linkNewAlbums_range "/dl" "/lib" [A_again] (mkSummary 0 0 0) w1
  = Ret (mkSummary 0 0 1) w1.
Proof.
  intros w1.
  rewrite (library_album_not_linked_again "/lib" in_library None w1 [A] A
             "/dl" "/lib" A_again [] (mkSummary 0 0 0)).
  - reflexivity.
  - vm_compute. reflexivity.
  - reflexivity.
  - left. reflexivity.
  - reflexivity.
  - reflexivity.
  - storable_ok.
  - reflexivity.
  - reflexivity.
  - reflexivity.
Defined.

Lemma new_album_entry_witness :
  let w1 := world_of (linkNewAlbums_range "/dl" "/lib" [A] (mkSummary 0 0 0) two_dirs) in
  albums w1 !! Gob.wire ["x.flac"; "y.flac"] = Some (Gob.bytes_of_string "A").
Proof.
  intros w1.
  apply (new_album_entry "/dl" "/lib" "A" 1 [File "x.flac" 1 10; File "y.flac" 1 11]
           (mkSummary 0 0 0) two_dirs (mkSummary 0 1 0) w1).
  - name_ok.
  - reflexivity.
  - vm_compute. reflexivity.
  - storable_ok.
  - vm_compute. reflexivity.
Defined.

Lemma same_key_iff_same_names_witness :
  Gob.wire ["x.flac"; "y.flac"] = Gob.wire ["x.flac"; "y.flac"]
  <-> map Name [File "x.flac" 1 10; File "y.flac" 1 11]
      = map Name [File "x.flac" 1 30; File "y.flac" 1 31].
Proof.
  apply (same_key_iff_same_names "/dl/A" A _ _ "/dl/A (copy)" A_again _ _);
    reflexivity.
Defined.

Lemma linkNewAlbums_twice_witness :
  let w1 := world_of (linkNewAlbums "/dl" "/lib" two_dirs) in
  linkNewAlbums "/dl" "/lib" w1 = Ret (mkSummary 0 0 1) w1.
Proof.
  intros w1.
  destruct (linkNewAlbums_twice "/dl" "/lib" two_dirs (mkSummary 0 1 0) w1)
    as [Hagain _].
  - vm_compute. reflexivity.
  - change (Forall (storable "/dl") [A; Dir "B" 1 true [File "cover.jpg" 1 12]]).
    constructor; [|constructor; [|constructor]]; storable_ok.
  - vm_compute. reflexivity.
  - rewrite Hagain. reflexivity.
Defined.

Lemma addToDb_small_listing_witness :
  addToDb (newAlbum "/dl/A" A) two_dirs = Ret None A_known.
Proof.
  destruct (addToDb_small_listing (newAlbum "/dl/A" A) two_dirs) as [_ Hadd].
  - vm_compute. discriminate.
  - vm_compute. discriminate.
  - rewrite Hadd. reflexivity.
Defined.

Section BootstrapFacts.

Import Bootstrap.

Lemma stat_walk names : forall e x,
  stat names e = Found x <-> walk names e = Some x.
Proof.
  induction names as [|n rest IH]; intros e x; simpl.
  - split; intros [= ->]; reflexivity.
  - destruct e as [|name dev rd cs]; [split; discriminate|].
    destruct (find_child n cs); [apply IH|split; discriminate].
Qed.

(** X16.  The data directory is made once.  When [createAppDataDir] returns,
    it returns the path [.flaclink] below the home directory; it has
    changed nothing, or it has made the directory and nothing else; and
    a second call returns the same path and changes nothing. *)
Theorem createAppDataDir_once usr (w : world) p w1 :
  createAppDataDir usr w = Ret p w1 ->
  (exists HomeDir, usr = Ok HomeDir /\ p = Path.Join HomeDir ".flaclink")
  /\ (w1 = w \/ is_directory (fs w1) p)
  /\ grows (fs w) (fs w1) /\ albums w1 = albums w /\ flock w1 = flock w
  /\ createAppDataDir usr w1 = Ret p w1.
Proof.
  unfold createAppDataDir. destruct usr as [HomeDir|e].
  2:{ destruct (@fatal_world string w) as (? & -> & _). discriminate. }
  unfold bind, os_Stat.
  destruct (stat (steps (Path.Join HomeDir ".flaclink")) (fs w)) as [x| |] eqn:Hst;
    cbn [os_IsNotExist].
  - intros [= <- <-]. rewrite Hst. cbn [os_IsNotExist].
    repeat split; eauto using grows_refl.
  - destruct (os_Mkdir _ w) as [[err|] w2|w2] eqn:Hmk.
    + destruct (@fatal_world string w2) as (? & -> & _). discriminate.
    + intros [= <- <-].
      destruct (os_Mkdir_albums (Path.Join HomeDir ".flaclink") w)
        as (r' & w' & Hmk' & Hal & Hfl).
      rewrite Hmk in Hmk'. injection Hmk' as <- <-.
      apply os_Mkdir_grows in Hmk as [Hg Hdir]. specialize (Hdir eq_refl).
      split; [eauto|]. split; [right; exact Hdir|].
      split; [exact Hg|]. split; [exact Hal|]. split; [exact Hfl|].
      destruct Hdir as (n & d & rd & cs & Hl). unfold lookup_path in Hl.
      apply stat_walk in Hl. rewrite Hl. reflexivity.
    + discriminate.
  - intros [= <- <-]. rewrite Hst. cbn [os_IsNotExist].
    repeat split; eauto using grows_refl.
Qed.

End BootstrapFacts.


Section IntoItself.

Implicit Types (w : world) (s : summary).

(** X17.  One directory as source and as target: the run ends at the first
    new album, whose name is taken by the album itself, and has changed
    nothing. *)
Theorem linkNewAlbums_into_source sourceDir file rest s w e :
  IsDir file = true ->
  valid_name (Name file) ->
  isAlbum (Path.Join sourceDir (Name file)) file = true ->
  inDb (newAlbum (Path.Join sourceDir (Name file)) file) w = Ret false w ->
  lookup_path (fs w) (Path.Join sourceDir (Name file)) = Some e ->
  exists w1,
    linkNewAlbums_range sourceDir sourceDir (file :: rest) s w = Exit w1
    /\ fs w1 = fs w /\ albums w1 = albums w.
Proof.
  intros Hdir Hv Halbum Hin Hthere.
  rewrite linkNewAlbums_range_cons, Hdir. cbv zeta. rewrite Halbum, Hin.
  destruct (linkAlbum_taken (Path.Join sourceDir (Name file)) sourceDir file w e)
    as (w1 & -> & Hfs & Hal).
  - rewrite (Base_Join sourceDir (Name file) Hv). exact Hthere.
  - eauto.
Qed.

End IntoItself.

Import BootExamples Bootstrap.

Lemma createAppDataDir_once_witness :
  let w1 := world_of (createAppDataDir (Ok "/home/u") fresh_home) in
  is_directory (fs w1) "/home/u/.flaclink"
  /\ createAppDataDir (Ok "/home/u") w1 = Ret "/home/u/.flaclink" w1.
Proof.
  intros w1.
  destruct (createAppDataDir_once (Ok "/home/u") fresh_home "/home/u/.flaclink" w1)
    as (_ & [Hsame|Hdir] & _ & _ & _ & Htwice).
  - vm_compute. reflexivity.
  - vm_compute in Hsame. discriminate.
  - split; assumption.
Defined.

Lemma linkNewAlbums_into_source_witness :
  exists w1,
    linkNewAlbums_range "/dl" "/dl" [A] (mkSummary 0 0 0) two_dirs = Exit w1
    /\ fs w1 = fs two_dirs /\ albums w1 = albums two_dirs.
Proof.
  apply (linkNewAlbums_into_source "/dl" A [] (mkSummary 0 0 0) two_dirs A).
  - reflexivity.
  - split; [repeat constructor|repeat split; discriminate].
  - reflexivity.
  - vm_compute. reflexivity.
  - reflexivity.
Defined.
